(** * NBVD co-clustering (nbvd.py): a shallow embedding over rationals

    Matrices are numpy-like 2-D arrays with an explicit shape; operations
    that numpy rejects on a shape mismatch return [Err ValueError].
    Floating-point numbers are modelled by [Q]: elementwise division by
    zero yields 0 in [Q] where numpy yields nan or inf, so statements about
    divisions carry the hypothesis that denominators are non-zero. *)

From Stdlib Require Import ZArith QArith List Bool Lia Lqa Permutation.
Import ListNotations.
Open Scope nat_scope.

(** ** Errors and the error monad *)

Inductive err :=
| ConfigError   (* the explicit [raise Exception(...)] of the module *)
| ValueError    (* numpy / sklearn shape or argument errors *)
| TypeError     (* unpacking [None] *)
| UnboundLocalError  (* a local read before any branch assigned it *)
| ZeroDivisionError. (* Python's division by zero *)

Inductive Res (A : Type) : Type :=
| Ok (a : A)
| Err (e : err).
Arguments Ok {A} a.
Arguments Err {A} e.

Definition bind {A B} (m : Res A) (k : A -> Res B) : Res B :=
  match m with Ok a => k a | Err e => Err e end.

Notation "x <- m ;; k" := (bind m (fun x => k))
  (at level 61, m at next level, right associativity).
Notation "' pat <- m ;; k" := (bind m (fun x => match x with pat => k end))
  (at level 61, pat pattern, m at next level, right associativity).

(** ** numpy arrays *)

Record arr (A : Type) := mkArr { nr : nat; nc : nat; get : nat -> nat -> A }.
Arguments mkArr {A} nr nc get.
Arguments nr {A} a.
Arguments nc {A} a.
Arguments get {A} a _ _.

Definition mat := arr Q.

(** 1-D arrays (label vectors). *)
Record vec (A : Type) := mkVec { vlen : nat; vget : nat -> A }.
Arguments mkVec {A} vlen vget.
Arguments vlen {A} v.
Arguments vget {A} v _.

Fixpoint sumQ (n : nat) (f : nat -> Q) : Q :=
  match n with
  | O => 0%Q
  | S n' => (sumQ n' f + f n')%Q
  end.

(** An array's entries are computed once, into a table, when the array is
    built (numpy materialises every intermediate result). *)
Definition tabulate {A} (d : A) (r c : nat) (f : nat -> nat -> A) : nat -> nat -> A :=
  let tbl := map (fun i => map (fun j => f i j) (seq 0 c)) (seq 0 r) in
  fun i j => nth j (nth i tbl []) d.

(** [A @ B] *)
Definition matmul (A B : mat) : Res mat :=
  if Nat.eqb (nc A) (nr B)
  then Ok (mkArr (nr A) (nc B) (tabulate 0%Q (nr A) (nc B)
          (fun i j => Qred (sumQ (nc A) (fun t => (get A i t * get B t j)%Q)))))
  else Err ValueError.

(** [A @ B @ C @ ...], left-associated as Python evaluates it *)
Definition mmc (A : mat) (Bs : list mat) : Res mat :=
  fold_left (fun acc B => X <- acc ;; matmul X B) Bs (Ok A).

(** [A.T] *)
Definition T {A} (M : arr A) : arr A := mkArr (nc M) (nr M) (fun i j => get M j i).

(** numpy broadcasting of one dimension *)
Definition bdim (a b : nat) : option nat :=
  if Nat.eqb a b then Some a
  else if Nat.eqb a 1 then Some b
  else if Nat.eqb b 1 then Some a
  else None.

Definition bidx (d i : nat) : nat := if Nat.eqb d 1 then 0 else i.

(** elementwise binary operation with broadcasting *)
Definition zipb {A B C} (f : A -> B -> C) (X : arr A) (Y : arr B) : Res (arr C) :=
  match bdim (nr X) (nr Y), bdim (nc X) (nc Y) with
  | Some r, Some c =>
      Ok (mkArr r c (tabulate (f (get X 0 0) (get Y 0 0)) r c
            (fun i j => f (get X (bidx (nr X) i) (bidx (nc X) j))
                          (get Y (bidx (nr Y) i) (bidx (nc Y) j)))))
  | _, _ => Err ValueError
  end.

Definition emul := zipb (fun x y => Qred (x * y)).
Definition ediv := zipb (fun x y => Qred (x / y)).
Definition esub := zipb (fun x y => Qred (x - y)).

(** [target[:,:] = X]: the value of X, broadcast to the target's shape *)
Definition assign (target X : mat) : Res mat :=
  if Nat.eqb (nr X) (nr target) && Nat.eqb (nc X) (nc target) then Ok X
  else if (Nat.eqb (nr X) (nr target) || Nat.eqb (nr X) 1)
          && (Nat.eqb (nc X) (nc target) || Nat.eqb (nc X) 1)
  then Ok (mkArr (nr target) (nc target)
             (fun i j => get X (bidx (nr X) i) (bidx (nc X) j)))
  else Err ValueError.

(** [X * num / den], evaluated left to right *)
Definition mult_update (X num den : mat) : Res mat :=
  P <- emul X num ;; ediv P den.

(** ** The factor store

    [C] is its own buffer in asymmetric mode; in symmetric mode
    [C = R.T] is a numpy view of [R]'s buffer, so a write to [R] is seen
    through [C]. *)

Inductive cslot := OwnC (C : mat) | ViewRT.

Record store := mkStore { sR : mat; sB : mat; sC : cslot }.

Definition getC (st : store) : mat :=
  match sC st with OwnC C => C | ViewRT => T (sR st) end.

Definition write_R (st : store) (X : mat) : Res store :=
  R' <- assign (sR st) X ;; Ok (mkStore R' (sB st) (sC st)).

Definition write_B (st : store) (X : mat) : Res store :=
  B' <- assign (sB st) X ;; Ok (mkStore (sR st) B' (sC st)).

(** [C[:,:] = X]; through the view this writes [R[:,:] = X.T]. *)
Definition write_C (st : store) (X : mat) : Res store :=
  match sC st with
  | OwnC C => C' <- assign C X ;; Ok (mkStore (sR st) (sB st) (OwnC C'))
  | ViewRT => Rt <- assign (T (sR st)) X ;; Ok (mkStore (T Rt) (sB st) ViewRT)
  end.

(** ** Update Engine: [attempt_coclustering_aux] (nbvd.py, lines 141-149)

    Each in-place statement [X[:,:] = X[:,:] * num / den] reads the store
    as left by the previous statement. *)

(* R[:,:] = R[:,:] * (Z@C.T@B.T)[:,:] / (R@B@C@C.T@B.T)[:,:] *)
Definition num_R (Z : mat) (st : store) := mmc Z [T (getC st); T (sB st)].
Definition den_R (st : store) :=
  mmc (sR st) [sB st; getC st; T (getC st); T (sB st)].
Definition upd_R (Z : mat) (st : store) : Res store :=
  num <- num_R Z st ;; den <- den_R st ;;
  X <- mult_update (sR st) num den ;; write_R st X.

(* B[:,:] = B[:,:] * (R.T@Z@C.T)[:,:] / (R.T@R@B@C@C.T)[:,:] *)
Definition num_B (Z : mat) (st : store) := mmc (T (sR st)) [Z; T (getC st)].
Definition den_B (st : store) :=
  mmc (T (sR st)) [sR st; sB st; getC st; T (getC st)].
Definition upd_B (Z : mat) (st : store) : Res store :=
  num <- num_B Z st ;; den <- den_B st ;;
  X <- mult_update (sB st) num den ;; write_B st X.

(* C[:,:] = C[:,:] * (B.T@R.T@Z)[:,:] / (B.T@R.T@R@B@C)[:,:] *)
Definition num_C (Z : mat) (st : store) := mmc (T (sB st)) [T (sR st); Z].
Definition den_C (st : store) :=
  mmc (T (sB st)) [T (sR st); sR st; sB st; getC st].
Definition upd_C (Z : mat) (st : store) : Res store :=
  num <- num_C Z st ;; den <- den_C st ;;
  X <- mult_update (getC st) num den ;; write_C st X.

(* S = R;  S[:,:] = S[:,:] * (Z@S@B)[:,:] / (S@B@S.T@S@B)[:,:] *)
Definition num_S (Z : mat) (st : store) := mmc Z [sR st; sB st].
Definition den_S (st : store) := mmc (sR st) [sB st; T (sR st); sR st; sB st].
Definition upd_S (Z : mat) (st : store) : Res store :=
  num <- num_S Z st ;; den <- den_S st ;;
  X <- mult_update (sR st) num den ;; write_R st X.

(* B[:,:] = B[:,:] * (S.T@Z@S)[:,:] / (S.T@S@B@S.T@S)[:,:] *)
Definition num_SB (Z : mat) (st : store) := mmc (T (sR st)) [Z; sR st].
Definition den_SB (st : store) :=
  mmc (T (sR st)) [sR st; sB st; T (sR st); sR st].
Definition upd_SB (Z : mat) (st : store) : Res store :=
  num <- num_SB Z st ;; den <- den_SB st ;;
  X <- mult_update (sB st) num den ;; write_B st X.

Definition attempt_coclustering_aux (Z : mat) (st : store) (symmetric : bool)
  : Res store :=
  if negb symmetric then
    st <- upd_R Z st ;; st <- upd_B Z st ;; upd_C Z st
  else
    st <- upd_S Z st ;; upd_SB Z st.

(** The asymmetric update as the specification writes it: R first from
    the previous B and C, then B from the new R and previous C, then C
    from the new R and new B. *)
Definition nbvd_step_spec (Z R B C : mat) : Res (mat * mat * mat) :=
  R1 <- (num <- mmc Z [T C; T B] ;; den <- mmc R [B; C; T C; T B] ;;
         mult_update R num den) ;;
  B1 <- (num <- mmc (T R1) [Z; T C] ;; den <- mmc (T R1) [R1; B; C; T C] ;;
         mult_update B num den) ;;
  C1 <- (num <- mmc (T B1) [T R1; Z] ;; den <- mmc (T B1) [T R1; R1; B1; C] ;;
         mult_update C num den) ;;
  Ok (R1, B1, C1).

Definition store_of (t : mat * mat * mat) : store :=
  let '(R, B, C) := t in mkStore R B (OwnC C).

Definition res_map {A B} (f : A -> B) (r : Res A) : Res B :=
  x <- r ;; Ok (f x).

(** ** Non-negativity and the denominators of one iteration *)

Definition nonneg (M : mat) : Prop :=
  forall i j, i < nr M -> j < nc M -> (0 <= get M i j)%Q.

Definition nonneg_store (st : store) : Prop :=
  nonneg (sR st) /\ nonneg (sB st) /\ nonneg (getC st).

Definition nonzero_entries (M : mat) : Prop :=
  forall i j, i < nr M -> j < nc M -> ~ (get M i j == 0)%Q.

(** Every denominator divided by during one iteration from [st] has no
    zero entry (each one computed from the store its statement reads). *)
Definition denominators_nonzero (Z : mat) (st : store) (symmetric : bool) : Prop :=
  if negb symmetric then
    (forall D, den_R st = Ok D -> nonzero_entries D) /\
    (forall st1 D, upd_R Z st = Ok st1 -> den_B st1 = Ok D -> nonzero_entries D) /\
    (forall st1 st2 D, upd_R Z st = Ok st1 -> upd_B Z st1 = Ok st2 ->
                       den_C st2 = Ok D -> nonzero_entries D)
  else
    (forall D, den_S st = Ok D -> nonzero_entries D) /\
    (forall st1 D, upd_S Z st = Ok st1 -> den_SB st1 = Ok D -> nonzero_entries D).

(** ** The library functions the module calls

    [numpy.random.default_rng], [Generator.random], [numpy.linalg.norm]
    and [sklearn.metrics.silhouette_score] are not part of the repository;
    they are the fields of this class. [linalg_norm] is the Frobenius norm
    of its argument; the module only stores and compares its values. *)
Class Backend := {
  rng_state : Type;
  rng_from_seed : Z -> rng_state;
    (* the generator [default_rng(seed)] builds from an integer seed *)
  rng_random : rng_state -> nat -> nat -> mat * rng_state;
    (* [rng.random((r, c))]: an r x c matrix and the advanced generator *)
  linalg_norm : mat -> Q;
  silhouette_value : mat -> vec nat -> Q
    (* [silhouette_score(X, labels, metric="cosine")] where it is defined *)
}.

(** The generator [default_rng(seed)] builds for a seed it accepts: with
    [seed = None] numpy seeds from fresh OS entropy, here the generator
    [entropy]. *)
Definition rng_of_seed `{Backend} (seed : option Z) (entropy : rng_state) : rng_state :=
  match seed with Some s => rng_from_seed s | None => entropy end.

(** [default_rng(seed)]: numpy rejects a negative integer seed with
    ValueError ("expected non-negative integer"). *)
Definition default_rng `{Backend} (seed : option Z) (entropy : rng_state)
  : Res rng_state :=
  match seed with
  | Some s => if Z.ltb s 0 then Err ValueError else Ok (rng_of_seed seed entropy)
  | None => Ok (rng_of_seed seed entropy)
  end.

(** ** Convergence Monitor: [attempt_coclustering] (nbvd.py, lines 151-171) *)

(** Norm values: [np.inf] or a finite number. *)
Inductive fnorm := Fin (q : Q) | Inf.

(** [a <= b] on floats *)
Definition fle (a b : fnorm) : bool :=
  match a, b with
  | _, Inf => true
  | Inf, Fin _ => false
  | Fin x, Fin y => Qle_bool x y
  end.

Record loop_out := mkLoopOut {
  lo_store : store;          (* the factors R, B, C after the last update *)
  lo_norm : fnorm;           (* current_norm *)
  lo_iter : nat;             (* i *)
  lo_norms : list Q;         (* current_norm_history *)
  lo_hist : list store       (* current_history: initial factors, then one per update *)
}.

Section Attempt.
Context `{Backend}.

(** [norm(R@B@C - Z)] *)
Definition recon_norm (Z : mat) (st : store) : Res Q :=
  P <- mmc (sR st) [sB st; getC st] ;; D <- esub P Z ;; Ok (linalg_norm D).

(** The [while] loop, run on [fuel]; [attempt_coclustering] gives it more
    fuel than the loop can use. *)
Fixpoint conv_loop (fuel : nat) (iter_max : Z) (Z : mat) (symmetric : bool)
    (i : nat) (previous_norm current_norm : fnorm) (st : store)
    (norms : list Q) (hist : list store) : Res loop_out :=
  match fuel with
  | O => Ok (mkLoopOut st current_norm i norms hist)
  | S fuel' =>
      if Nat.eqb i 0 || (Z.ltb (Z.of_nat i) iter_max && fle current_norm previous_norm)
      then
        st <- attempt_coclustering_aux Z st symmetric ;;
        nrm <- recon_norm Z st ;;
        conv_loop fuel' iter_max Z symmetric (S i) current_norm (Fin nrm) st
                  (norms ++ [nrm]) (hist ++ [st])
      else Ok (mkLoopOut st current_norm i norms hist)
  end.

Definition attempt_coclustering (iter_max : Z) (Z : mat) (st : store) (symmetric : bool)
  : Res loop_out :=
  conv_loop (S (S (Z.to_nat iter_max))) iter_max Z symmetric 0 Inf Inf st [] [st].

End Attempt.

(** The norm after the [j]-th update in a norm history ([np.inf] before
    the first one). *)
Definition norm_at (norms : list Q) (j : nat) : fnorm :=
  match j with O => Inf | S j' => Fin (nth j' norms 0%Q) end.

(** ** Label Extractor: [get_adherence] and [get_labels_bicluster]
    (nbvd.py, lines 75-133) *)

(** [np.sum(M)] *)
Definition msum (M : mat) : Q :=
  sumQ (nr M) (fun i => sumQ (nc M) (fun j => get M i j)).

(** [np.ones((r, c))] *)
Definition ones (r c : nat) : mat := mkArr r c (fun _ _ => 1%Q).

(** [M / x] for a scalar [x] *)
Definition sdiv (M : mat) (x : Q) : mat :=
  mkArr (nr M) (nc M) (fun i j => (get M i j / x)%Q).

(** [np.diag(np.diag(M))]: the diagonal of a 2-D array has length
    [min(r, c)], and [np.diag] of it is a square matrix of that size. *)
Definition diag2 (M : mat) : mat :=
  let d := Nat.min (nr M) (nc M) in
  mkArr d d (fun i j => if Nat.eqb i j then get M i i else 0%Q).

(** The [method] argument: "rbc", "fancy", "centroids" (with the [Z] and
    [centroids = (row_centroids, col_centroids)] arguments that only this
    method reads), or any other string. *)
Inductive adherence_method :=
| Rbc
| Fancy
| Centroids (Z : mat) (row_centroids col_centroids : mat)
| Other_method.

Definition get_adherence (R C : mat) (B : option mat) (method : adherence_method)
  : Res (mat * mat) :=
  match method with
  | Centroids _ _ _ | Other_method =>
      Err UnboundLocalError   (* neither branch assigns [row_adh] *)
  | Rbc => Ok (R, T C)
  | Fancy =>
      match B with
      | None => Err ConfigError   (* raise Exception("... B is None") *)
      | Some B =>
          X <- mmc R [B; C] ;;
          let xsum := msum X in
          let U := R in
          let S := sdiv B xsum in
          let V := T C in
          Du <- (M <- matmul (T (ones (nr U) (nc U))) U ;; Ok (diag2 M)) ;;
          Dv <- (M <- matmul (T (ones (nr V) (nc V))) V ;; Ok (diag2 M)) ;;
          U <- (M <- mmc S [Dv; ones (nr Dv) (nc Dv)] ;; matmul U (diag2 M)) ;;
          V <- (M <- mmc (T (ones (nr Du) (nc Du))) [Du; S] ;; matmul V (diag2 M)) ;;
          Ok (U, V)
      end
  end.

Definition Qltb (x y : Q) : bool := negb (Qle_bool y x).

(** index of the first maximum of [f] over [j, j + n), starting from [best] *)
Fixpoint argmax_from (f : nat -> Q) (best j n : nat) : nat :=
  match n with
  | O => best
  | S n' => argmax_from f (if Qltb (f best) (f j) then j else best) (S j) n'
  end.

(** [np.argmax(A, axis=1)]: fails on an empty axis *)
Definition argmax_rows (A : mat) : Res (vec nat) :=
  if Nat.eqb (nc A) 0 then Err ValueError
  else Ok (mkVec (nr A) (fun i => argmax_from (get A i) 0 1 (nc A - 1))).

(** [np.mgrid[slice(r), slice(c)]] *)
Definition mgrid_i (r c : nat) : arr nat := mkArr r c (fun i _ => i).
Definition mgrid_j (r c : nat) : arr nat := mkArr r c (fun _ j => j).

(** [v.reshape((n, 1))] *)
Definition reshape_col (v : vec nat) (n : nat) : Res (arr nat) :=
  if Nat.eqb (vlen v) n then Ok (mkArr n 1 (fun i _ => vget v i)) else Err ValueError.

(** [M.repeat(k, axis=1)] *)
Definition repeat_axis1 {A} (M : arr A) (k : nat) : arr A :=
  mkArr (nr M) (nc M * k) (fun i j => get M i (j / k)).

(** [np.where(X == Y, True, False)], with broadcasting *)
Definition eq_arr (X Y : arr nat) : Res (arr bool) := zipb Nat.eqb X Y.

(** sklearn's [pairwise_distances_argmin(X, Y, metric="cosine")]: for each
    row [x] of [X], the first row [y] of [Y] at the least cosine distance
    [1 - x.y / (|x| |y|)], where a zero row has similarity 0 to every row.
    As [|x|] is the same for every [y], that is the first [y] with the
    greatest [x.y / |y|]; [sim_lt] compares two such values [a / sqrt q]
    through their signs and squares. sklearn raises ValueError on an input
    with no row or no column, and on differing feature counts. *)
Definition sim_lt (a1 q1 a2 q2 : Q) : bool :=
  if Qle_bool 0 a1 then
    if Qle_bool 0 a2 then Qltb (a1 * a1 * q2) (a2 * a2 * q1) else false
  else
    if Qle_bool 0 a2 then true else Qltb (a2 * a2 * q1) (a1 * a1 * q2).

(** index of the first greatest element for [lt] over [j, j + n), from [best] *)
Fixpoint argmax_by (lt : nat -> nat -> bool) (best j n : nat) : nat :=
  match n with
  | O => best
  | S n' => argmax_by lt (if lt best j then j else best) (S j) n'
  end.

Definition pairwise_distances_argmin_cosine (X Y : mat) : Res (vec nat) :=
  if Nat.eqb (nr X) 0 || Nat.eqb (nr Y) 0 || Nat.eqb (nc X) 0
     || negb (Nat.eqb (nc X) (nc Y))
  then Err ValueError
  else
    let sim i c :=
      let q := sumQ (nc Y) (fun f => get Y c f * get Y c f)%Q in
      if Qeq_bool q 0 then (0%Q, 1%Q)
      else (sumQ (nc X) (fun f => get X i f * get Y c f)%Q, q) in
    Ok (mkVec (nr X) (fun i =>
          argmax_by (fun b c => let '(a1, q1) := sim i b in let '(a2, q2) := sim i c in
                                sim_lt a1 q1 a2 q2)
            0 1 (nr Y - 1))).

(** [get_labels_new_data] (lines 70-73); its dimension arguments are unused *)
Definition get_labels_new_data (Z centers : mat) : Res (vec nat) :=
  pairwise_distances_argmin_cosine Z (T centers).

(** The masks and labels [get_labels_bicluster] returns, from the labels
    and the [n, k, l, m] in scope (lines 123-133) *)
Definition bicluster_masks (n k l m : nat) (row col : vec nat)
  : Res ((arr bool * arr bool) * vec nat * vec nat) :=
  let j_idx := mgrid_j n k in
  row_mod <- (M <- reshape_col row n ;; Ok (repeat_axis1 M k)) ;;
  bic_rows <- eq_arr j_idx row_mod ;;
  let i_idx := mgrid_i l m in
  col_mod <- (M <- reshape_col col m ;; Ok (repeat_axis1 M k)) ;;
  bic_cols <- eq_arr (T i_idx) col_mod ;;
  Ok ((T bic_rows, T bic_cols), row, col).

Definition get_labels_bicluster (R C : mat) (B : option mat) (method : adherence_method)
  : Res ((arr bool * arr bool) * vec nat * vec nat) :=
  match method with
  | Centroids Z row_centroids col_centroids =>
      (* [m, k = row_centroids.shape]; [n, l = col_centroids.shape] *)
      let m := nr row_centroids in let k := nc row_centroids in
      let n := nr col_centroids in let l := nc col_centroids in
      row <- get_labels_new_data Z row_centroids ;;
      col <- get_labels_new_data (T Z) col_centroids ;;
      bicluster_masks n k l m row col
  | _ =>
      let n := nr R in let k := nc R in
      let l := nr C in let m := nc C in
      '(row_adh, col_adh) <- get_adherence R C B method ;;
      row <- argmax_rows row_adh ;;
      col <- argmax_rows col_adh ;;
      bicluster_masks n k l m row col
  end.

(** The strategies whose labels come from [get_adherence]: all but
    [centroids]. *)
Definition uses_adherence (method : adherence_method) : bool :=
  match method with Centroids _ _ _ => false | _ => true end.

(** ** Cluster-Association Module: [get_cluster_assoc] (lines 135-139) *)

(** [np.average(B, axis=1)] divides by [B.size / avg.size], a Python
    division by zero when B has no row. *)
Definition get_cluster_assoc (R B C : mat) : Res (arr bool) :=
  let k := nr B in let l := nc B in
  if Nat.eqb k 0 then Err ZeroDivisionError else
  let B_row_avg := mkArr k 1 (fun i _ =>
                     (sumQ l (fun j => get B i j) / inject_Z (Z.of_nat l))%Q) in
  zipb (fun b a => Qle_bool a b) B (repeat_axis1 B_row_avg l).

(** ** Centroid Calculator and basis vectors (lines 50-68) *)

(** Modelled from the spec: [get_centroids_by_cluster] of my_utils, which
    is not under src/. For each cluster index [c < n_clusters], column [c]
    is the arithmetic mean of the rows of [X] whose label is [c] (0 for an
    empty cluster, which the spec leaves open). *)
Definition get_centroids_by_cluster (X : mat) (labels : vec nat) (n_clusters : Z) : mat :=
  mkArr (nc X) (Z.to_nat n_clusters) (fun f c =>
    let cnt := sumQ (nr X) (fun i => if Nat.eqb (vget labels i) c then 1%Q else 0%Q) in
    (sumQ (nr X) (fun i => if Nat.eqb (vget labels i) c then get X i f else 0%Q) / cnt)%Q).

Definition get_centroids (Z : mat) (rc_labels : vec nat * vec nat)
    (n_rc_clusters : BinNums.Z * BinNums.Z) : mat * mat :=
  let (row_labels, col_labels) := rc_labels in
  let (n_row_clusters, n_col_clusters) := n_rc_clusters in
  (get_centroids_by_cluster Z row_labels n_row_clusters,
   get_centroids_by_cluster (T Z) col_labels n_col_clusters).

Definition get_basis_vectors (R B C : mat) : Res (mat * mat) :=
  col_basis <- matmul R B ;;
  row_basis <- (M <- matmul B C ;; Ok (T M)) ;;
  Ok (row_basis, col_basis).

(** ** Clustering quality *)

Definition n_distinct (v : vec nat) : nat :=
  length (nodup Nat.eq_dec (map (vget v) (seq 0 (vlen v)))).

(** [silhouette_score(X, labels, metric="cosine")]: sklearn rejects label
    vectors of the wrong length and label sets whose number of distinct
    values is not in [2, n_samples - 1] with a [ValueError]. *)
Definition silhouette_score `{Backend} (X : mat) (labels : vec nat) : Res Q :=
  let n_labels := n_distinct labels in
  if Nat.eqb (vlen labels) (nr X) && Nat.leb 2 n_labels && Nat.leb n_labels (nr X - 1)
  then Ok (silhouette_value X labels)
  else Err ValueError.

(** Modelled from the spec: [MeanTuple] of my_utils, which is not under
    src/. A tuple of scores compared by the arithmetic mean of its
    components; [MeanTuple(-np.inf)] has mean minus infinity. *)
Inductive MeanTuple := MT_neg_inf | MT (sil_row sil_col : Q).

Definition mt_mean (t : MeanTuple) : option Q :=
  match t with MT_neg_inf => None | MT a b => Some ((a + b) / 2)%Q end.

(** [x > y] on mean tuples ([None] is minus infinity) *)
Definition mt_gt (x y : MeanTuple) : bool :=
  match mt_mean x, mt_mean y with
  | Some a, None => true
  | Some a, Some b => Qltb b a
  | None, _ => false
  end.

(** ** Attempt Orchestrator: [do_things] (lines 173-216) *)

Definition factors (st : store) : mat * mat * mat := (sR st, sB st, getC st).

Record attempt_result := mkAttempt {
  ar_results : mat * mat * mat;
  ar_norm : fnorm;
  ar_iter : nat;
  ar_sil : MeanTuple;
  ar_norms : list Q;
  ar_hist : list (mat * mat * mat)
}.

Record best := mkBest {
  best_norm : fnorm;
  best_results : option (mat * mat * mat);
  best_iter : nat;
  best_sil : MeanTuple;
  best_history : option (list (mat * mat * mat));   (* self.best_history *)
  norm_history : option (list Q)                    (* self.norm_history *)
}.

(** [attempt_no, best_norm, best_results, best_iter, best_sil = 0, np.inf, None, 0, MeanTuple(-np.inf)] *)
Definition best_init : best := mkBest Inf None 0 MT_neg_inf None None.

Section Orchestrator.
Context `{Backend}.

(** [rng.random((r, c))]; numpy rejects negative dimensions *)
Definition random_mat (g : rng_state) (r c : Z) : Res (mat * rng_state) :=
  if Z.ltb r 0 || Z.ltb c 0 then Err ValueError
  else Ok (rng_random g (Z.to_nat r) (Z.to_nat c)).

(** [Z.mean()] *)
Definition mean_mat (Z : mat) : Q := (msum Z / inject_Z (Z.of_nat (nr Z * nc Z)))%Q.

(** [x * np.ones((r, c))] *)
Definition const_mat (r c : Z) (x : Q) : Res mat :=
  if Z.ltb r 0 || Z.ltb c 0 then Err ValueError
  else Ok (mkArr (Z.to_nat r) (Z.to_nat c) (fun _ _ => x)).

Definition init_factors (k l : Z) (symmetric : bool) (Z : mat) (g : rng_state)
  : Res (store * rng_state) :=
  let n := Z.of_nat (nr Z) in let m := Z.of_nat (nc Z) in
  if negb symmetric then
    (* R, B, C = rng.random((n,k)), Z.mean() * np.ones((k,l)), rng.random((l,m)) *)
    '(R, g) <- random_mat g n k ;;
    B <- const_mat k l (mean_mat Z) ;;
    '(C, g) <- random_mat g l m ;;
    Ok (mkStore R B (OwnC C), g)
  else
    (* R, B = rng.random((n,k)), Z.mean() * np.ones((k,l));  C = R.T *)
    '(R, g) <- random_mat g n k ;;
    B <- const_mat k l (mean_mat Z) ;;
    Ok (mkStore R B ViewRT, g).

(** One attempt of the [while attempt_no < self.n_attempts] loop, up to
    the labels of its factors. *)
Definition attempt_labels (k l : Z) (symmetric : bool) (iter_max : Z) (Z : mat)
    (g : rng_state) : Res (loop_out * vec nat * vec nat * rng_state) :=
  '(st, g) <- init_factors k l symmetric Z g ;;
  out <- attempt_coclustering iter_max Z st symmetric ;;
  let '(R, B, C) := factors (lo_store out) in
  '(_, row_labels, col_labels) <- get_labels_bicluster R C (Some B) Fancy ;;
  Ok (out, row_labels, col_labels, g).

Definition run_attempt (k l : Z) (symmetric : bool) (iter_max : Z) (Z : mat)
    (g : rng_state) : Res (attempt_result * rng_state) :=
  '(out, row_labels, col_labels, g) <- attempt_labels k l symmetric iter_max Z g ;;
  sil_row <- silhouette_score Z row_labels ;;
  sil_col <- silhouette_score (T Z) col_labels ;;
  Ok (mkAttempt (factors (lo_store out)) (lo_norm out) (lo_iter out)
                (MT sil_row sil_col) (lo_norms out) (map factors (lo_hist out)), g).

(** [if silhouette > best_sil: ...] *)
Definition select (save_history save_norm_history : bool) (b : best) (a : attempt_result)
  : best :=
  if mt_gt (ar_sil a) (best_sil b) then
    mkBest (ar_norm a) (Some (ar_results a)) (ar_iter a) (ar_sil a)
      (if save_history then Some (ar_hist a) else best_history b)
      (if save_norm_history then Some (ar_norms a) else norm_history b)
  else b.

Fixpoint do_things_loop (k l : Z) (symmetric : bool) (iter_max : Z)
    (save_history save_norm_history : bool) (Z : mat)
    (todo : nat) (g : rng_state) (b : best) : Res best :=
  match todo with
  | O => Ok b
  | S todo' =>
      '(a, g) <- run_attempt k l symmetric iter_max Z g ;;
      do_things_loop k l symmetric iter_max save_history save_norm_history Z todo' g
        (select save_history save_norm_history b a)
  end.

(** The attempts of a run, in order. *)
Fixpoint run_attempts (k l : Z) (symmetric : bool) (iter_max : Z) (Z : mat)
    (todo : nat) (g : rng_state) : Res (list attempt_result) :=
  match todo with
  | O => Ok []
  | S todo' =>
      '(a, g) <- run_attempt k l symmetric iter_max Z g ;;
      rest <- run_attempts k l symmetric iter_max Z todo' g ;;
      Ok (a :: rest)
  end.

(** The generator state after the first [j] attempts of a run. *)
Fixpoint rng_after_attempts (k l : Z) (symmetric : bool) (iter_max : Z) (Z : mat)
    (j : nat) (g : rng_state) : Res rng_state :=
  match j with
  | O => Ok g
  | S j' =>
      '(_, g) <- run_attempt k l symmetric iter_max Z g ;;
      rng_after_attempts k l symmetric iter_max Z j' g
  end.

End Orchestrator.

(** ** Construction: [__post_init__] (lines 219-244) *)

Record config := mkConfig {
  data : mat;
  n_row_clusters : Z;
  n_col_clusters : Z;
  symmetric : bool;
  iter_max : Z;
  n_attempts : Z;
  random_state : option Z;
  save_history : bool;
  save_norm_history : bool
}.

Record model := mkModel {
  m_R : mat;
  m_B : mat;
  m_C : mat;
  m_S : option mat;
  m_best_norm : fnorm;
  m_best_iter : nat;
  m_basis_vectors : mat * mat;
  m_biclusters : arr bool * arr bool;
  m_row_labels : vec nat;
  m_column_labels : vec nat;
  m_cluster_assoc : arr bool;
  m_centroids : mat * mat;
  m_best_history : option (list (mat * mat * mat));
  m_norm_history : option (list Q)
}.

Definition do_things `{Backend} (cfg : config) (Z : mat) (rng : rng_state) : Res best :=
  do_things_loop (n_row_clusters cfg) (n_col_clusters cfg) (symmetric cfg) (iter_max cfg)
    (save_history cfg) (save_norm_history cfg) Z (Z.to_nat (n_attempts cfg)) rng best_init.

Definition NBVD_coclustering `{Backend} (cfg : config) (entropy : rng_state) : Res model :=
  rng <- default_rng (random_state cfg) entropy ;;
  let Z := data cfg in
  _ <- (if symmetric cfg && negb (Nat.eqb (nr Z) (nc Z))
        then Err ConfigError else Ok tt) ;;
  b <- do_things cfg Z rng ;;
  '(R, B, C) <- match best_results b with Some t => Ok t | None => Err TypeError end ;;
  let S := if symmetric cfg then Some R else None in
  basis_vectors <- get_basis_vectors R B C ;;
  '(biclusters, row_labels, column_labels) <- get_labels_bicluster R C (Some B) Fancy ;;
  cluster_assoc <- get_cluster_assoc R B C ;;
  let centroids := get_centroids Z (row_labels, column_labels)
                     (n_row_clusters cfg, n_col_clusters cfg) in
  Ok (mkModel R B C S (best_norm b) (best_iter b) basis_vectors biclusters
        row_labels column_labels cluster_assoc centroids
        (best_history b) (norm_history b)).

(** ** Decision procedures for the properties above

    Boolean versions of [nonneg] and [nonzero_entries], used to check
    them on concrete matrices. *)

Definition forall_ij (r c : nat) (p : nat -> nat -> bool) : bool :=
  forallb (fun i => forallb (fun j => p i j) (seq 0 c)) (seq 0 r).

Definition nonnegb (M : mat) : bool :=
  forall_ij (nr M) (nc M) (fun i j => Qle_bool 0 (get M i j)).

Definition nonneg_storeb (st : store) : bool :=
  nonnegb (sR st) && nonnegb (sB st) && nonnegb (getC st).

Definition nonzerob (M : mat) : bool :=
  forall_ij (nr M) (nc M) (fun i j => negb (Qeq_bool (get M i j) 0)).

(** [p] holds of the value of [r], if there is one *)
Definition res_all {A} (p : A -> bool) (r : Res A) : bool :=
  match r with Ok a => p a | Err _ => true end.

Definition denominators_nonzerob (Z : mat) (st : store) (symmetric : bool) : bool :=
  if negb symmetric then
    res_all nonzerob (den_R st) &&
    res_all (fun st1 => res_all nonzerob (den_B st1) &&
               res_all (fun st2 => res_all nonzerob (den_C st2)) (upd_B Z st1))
            (upd_R Z st)
  else
    res_all nonzerob (den_S st) &&
    res_all (fun st1 => res_all nonzerob (den_SB st1)) (upd_S Z st).

(** the value of [r], or [d] *)
Definition res_get {A} (d : A) (r : Res A) : A :=
  match r with Ok a => a | Err _ => d end.

(** an empty model, a default value for [res_get] *)
Definition model0 : model :=
  let e {A} (d : A) : arr A := mkArr 0 0 (fun _ _ => d) in
  mkModel (e 0%Q) (e 0%Q) (e 0%Q) None Inf 0 (e 0%Q, e 0%Q) (e false, e false)
    (mkVec 0 (fun _ => 0)) (mkVec 0 (fun _ => 0)) (e false) (e 0%Q, e 0%Q) None None.

(** [P] holds of the value of [r], and [r] has one *)
Definition ok_then {A} (r : Res A) (P : A -> Prop) : Prop :=
  match r with Ok a => P a | Err _ => False end.

(** A computation that does not raise the module's own configuration
    exception. *)
Definition nocfg {A} (r : Res A) : Prop := r <> Err ConfigError.

(** The part of the retained best that the selection compares and exposes
    ([best_norm], [best_results], [best_iter], [best_sil]). *)
Definition core_best (b : best) : fnorm * option (mat * mat * mat) * nat * MeanTuple :=
  (best_norm b, best_results b, best_iter b, best_sil b).

(** R, B, C, the labels and the centroids of a model. *)
Definition core_model (md : model)
  : mat * mat * mat * vec nat * vec nat * (mat * mat) :=
  (m_R md, m_B md, m_C md, m_row_labels md, m_column_labels md, m_centroids md).

(** ** An example backend and example inputs

    A deterministic generator whose [random((r, c))] puts 2/3 on a block
    diagonal and 1/3 elsewhere (every row of an [n x k] draw and every
    column of an [l x m] draw sums to 1), the squared Frobenius norm (it
    orders matrices as the norm does), and a constant silhouette. *)

Definition ex_random (g : nat) (r c : nat) : mat * nat :=
  (mkArr r c (fun i j =>
     if Nat.eqb (i * c / r) j || Nat.eqb (j * r / c) i then (2 # 3)%Q else (1 # 3)%Q),
   S g).

Definition ex_sqnorm (D : mat) : Q :=
  fold_left (fun acc i =>
    fold_left (fun a j => Qred (a + get D i j * get D i j)%Q) (seq 0 (nc D)) acc)
    (seq 0 (nr D)) 0%Q.

Definition ex_backend : Backend := {|
  rng_state := nat;
  rng_from_seed := Z.to_nat;
  rng_random := ex_random;
  linalg_norm := ex_sqnorm;
  silhouette_value := fun _ _ => 0%Q
|}.

(** A 2 x 2 input with k = l = 1 and factors that are not a fixed point. *)
Definition ex_Z : mat := mkArr 2 2 (fun i j => if Nat.eqb i j then 2%Q else 1%Q).
Definition ex_R : mat := mkArr 2 1 (fun i _ => if Nat.eqb i 0 then 1%Q else (1 # 2)%Q).
Definition ex_B : mat := mkArr 1 1 (fun _ _ => 1%Q).
Definition ex_C : mat := mkArr 1 2 (fun _ j => if Nat.eqb j 0 then (1 # 2)%Q else 1%Q).
Definition ex_store : store := mkStore ex_R ex_B (OwnC ex_C).

(** The all-ones 4 x 6 matrix, which the example backend's first draws
    factor exactly (with [B = Z.mean() * ones = ones]). *)
Definition ex_ones : mat := mkArr 4 6 (fun _ _ => 1%Q).

Definition ex_cfg : config := mkConfig ex_ones 2 2 false 2 2 (Some 0%Z) false false.
Definition ex_cfg_hist : config := mkConfig ex_ones 2 2 false 2 2 (Some 0%Z) true true.
(** one cluster per axis: every label is 0 *)
Definition ex_cfg_one : config := mkConfig ex_ones 1 1 false 1 1 (Some 0%Z) false false.
(** no row cluster *)
Definition ex_cfg_zero : config := mkConfig ex_ones 0 2 false 1 1 (Some 0%Z) false false.

(* ================================================================ *)
(** * Further embeddings: shapes, histories and pira.py helpers *)

(** [r] raises nothing but numpy / sklearn value errors *)
Definition vonly {A} (r : Res A) : Prop := forall e, r = Err e -> e = ValueError.

(** The shapes of R, B and C in a store *)
Definition store_shape (st : store) : nat * nat * nat * nat * nat * nat :=
  (nr (sR st), nc (sR st), nr (sB st), nc (sB st), nr (getC st), nc (getC st)).

(** [C] is the view [R.T] (the symmetric mode) *)
Definition is_view (st : store) : bool :=
  match sC st with ViewRT => true | OwnC _ => false end.

(** [f] keeps every shape of the store, and whether C is a view *)
Definition shape_kept (f : store -> Res store) : Prop :=
  forall st st', f st = Ok st' ->
  store_shape st' = store_shape st /\ is_view st' = is_view st.

(** What an attempt hands to the selection, as [attempt_coclustering]
    produced it *)
Definition attempt_good (im : Z) (a : attempt_result) : Prop :=
  1 <= ar_iter a <= Nat.max 1 (Z.to_nat im) /\ length (ar_norms a) = ar_iter a /\
  (exists q, nth_error (ar_norms a) (ar_iter a - 1) = Some q /\ ar_norm a = Fin q) /\
  length (ar_hist a) = S (ar_iter a) /\
  nth_error (ar_hist a) (ar_iter a) = Some (ar_results a).

(** The retained best: nothing yet, or a good attempt with the histories
    that were asked for *)
Definition best_inv (sh snh : bool) (im : Z) (b : best) : Prop :=
  (best_results b = None /\ best_history b = None /\ norm_history b = None) \/
  exists a, attempt_good im a /\ best_results b = Some (ar_results a) /\
    best_iter b = ar_iter a /\ best_norm b = ar_norm a /\
    best_history b = (if sh then Some (ar_hist a) else None) /\
    norm_history b = (if snh then Some (ar_norms a) else None).

(** ** [get_representatives] (pira.py, lines 177-258) *)

(** [__candidate_selection] (pira.py, lines 177-184): the generator, run
    to the end by [list(...)]; an index past [labels] raises IndexError,
    written [None]. *)
Fixpoint candidate_selection_from (labels : list nat) (cluster_no : nat)
    (n_representatives : Z) (count : nat) (dists_to_centroid : list (nat * Q))
  : option (list nat) :=
  match dists_to_centroid with
  | [] => Some []
  | (i, _) :: rest =>
      match nth_error labels i with
      | None => None
      | Some li =>
          let '(count, yielded) :=
            if Nat.eqb li cluster_no then (S count, [i]) else (count, []) in
          if Z.leb n_representatives (Z.of_nat count) then Some yielded
          else option_map (app yielded)
                 (candidate_selection_from labels cluster_no n_representatives count rest)
      end
  end.

Definition __candidate_selection (dists_to_centroid : list (nat * Q)) (labels : list nat)
    (cluster_no : nat) (n_representatives : Z) : option (list nat) :=
  candidate_selection_from labels cluster_no n_representatives 0 dists_to_centroid.

(** [sorted(..., key=lambda t: t[1], reverse=reverse)]: a stable sort;
    with [reverse] the comparisons are reversed and ties keep their order. *)
Fixpoint insert_by_key (reverse : bool) (x : nat * Q) (l : list (nat * Q)) : list (nat * Q) :=
  match l with
  | [] => [x]
  | y :: l' =>
      if (if reverse then Qltb (snd y) (snd x) else Qltb (snd x) (snd y))
      then x :: y :: l'
      else y :: insert_by_key reverse x l'
  end.

Definition sorted_by_key (reverse : bool) (l : list (nat * Q)) : list (nat * Q) :=
  fold_left (fun acc x => insert_by_key reverse x acc) l [].

(** [all_distances[:,c]]; numpy raises IndexError past the last column *)
Definition column (A : mat) (c : nat) : option (list Q) :=
  if Nat.ltb c (nc A) then Some (map (fun i => get A i c) (seq 0 (nr A))) else None.

(** The loop [for c in range(n_clusters)] of [get_representatives]
    (lines 249-258), from the distances [all_distances] and the sort
    direction the chosen method leaves; the dict is an association list
    in insertion order. *)
Fixpoint representatives_loop (rows : nat) (all_distances : mat) (labels : list nat)
    (n_representatives : Z) (reverse : bool) (cs : list nat)
  : option (list (nat * list nat)) :=
  match cs with
  | [] => Some []
  | c :: cs' =>
      match column all_distances c with
      | None => None
      | Some col =>
          let dists_to_centroid := sorted_by_key reverse (combine (seq 0 rows) col) in
          match __candidate_selection dists_to_centroid labels c n_representatives with
          | None => None
          | Some rep_candidates =>
              match representatives_loop rows all_distances labels n_representatives
                      reverse cs' with
              | None => None
              | Some rest =>
                  Some (match rep_candidates with
                        | [] => rest
                        | _ => (c, rep_candidates) :: rest
                        end)
              end
          end
      end
  end.

Definition select_representatives (rows : nat) (all_distances : mat) (labels : list nat)
    (n_clusters : Z) (n_representatives : Z) (reverse : bool)
  : option (list (nat * list nat)) :=
  representatives_loop rows all_distances labels n_representatives reverse
    (seq 0 (Z.to_nat n_clusters)).

(** ** [kmeans_fix_labels] (pira.py, lines 610-627) *)

(** A numpy [Generator]: [random(size=(n,))] gives n floats in [0, 1) and
    [integers(low, high, size=(n,))] n integers in [low, high); numpy
    raises ValueError when [low >= high]. Each call advances the generator. *)
Class Generator := {
  gen_state : Type;
  gen_random : gen_state -> nat -> (nat -> Q) * gen_state;
  gen_integers_draw : gen_state -> Z -> Z -> nat -> (nat -> Z) * gen_state
}.

Definition gen_integers `{Generator} (g : gen_state) (low high : Z) (size : nat)
  : Res ((nat -> Z) * gen_state) :=
  if Z.leb high low then Err ValueError else Ok (gen_integers_draw g low high size).

(** [np.amax(a)]: fails on an empty array *)
Definition amax (a : list Z) : Res Z :=
  match a with [] => Err ValueError | x :: r => Ok (fold_left Z.max r x) end.

(** [np.bincount(x)]: fails on a negative entry *)
Definition bincount (x : list Z) : Res (list nat) :=
  if existsb (fun v => Z.ltb v 0) x then Err ValueError
  else match x with
       | [] => Ok []
       | _ => m <- amax x ;;
              Ok (map (fun b => count_occ Z.eq_dec x (Z.of_nat b)) (seq 0 (S (Z.to_nat m))))
       end.

(** [np.argmax(a)] on a 1-d array: the first maximum; fails when empty *)
Definition argmax_list (a : list nat) : Res nat :=
  match a with
  | [] => Err ValueError
  | _ => Ok (argmax_from (fun t => inject_Z (Z.of_nat (nth t a 0%nat))) 0 1 (length a - 1))
  end.

(** [np.place(a, a == v, vals)]: the matching entries, in order, take
    [vals 0], [vals 1], ... *)
Fixpoint place_eq (a : list Z) (v : Z) (vals : nat -> Z) (j : nat) : list Z :=
  match a with
  | [] => []
  | x :: r => if Z.eqb x v then vals j :: place_eq r v vals (S j)
              else x :: place_eq r v vals j
  end.

Definition kmeans_fix_labels `{Generator} (labels : list Z) (RNG : option gen_state)
    (fresh : gen_state) (probability : Q) : Res (list Z * gen_state) :=
  counts <- bincount labels ;;
  i_problem <- argmax_list counts ;;
  let i_problem := Z.of_nat i_problem in
  let g := match RNG with Some g => g | None => fresh end in
  let selected_labels := filter (fun v => Z.eqb v i_problem) labels in
  let flat_length := length selected_labels in
  m <- amax labels ;;
  let n_labels := (1 + m)%Z in
  let new_labels := labels in
  let '(u, g) := gen_random g flat_length in
  '(ints, g) <- gen_integers g 1 n_labels flat_length ;;
  let vals := fun j => Z.modulo (nth j selected_labels 0%Z
                                 + (if Qltb (u j) probability then 1 else 0) * ints j)
                                n_labels in
  Ok (place_eq new_labels i_problem vals 0, g).

(** ** [Preprocessor] (pira.py, lines 148-175)

    A Python string as its list of code points. *)
Definition pystr := list nat.

(** [Preprocessor.transform] (lines 167-175): the sentences longer than
    300 code points, each the first time it occurs, mapped through
    [self.preprocess]; the set is a list tested for membership. *)
Fixpoint transform_loop (preprocess : pystr -> pystr) (X_list : list pystr)
    (unique_sentences : list pystr) : list pystr :=
  match X_list with
  | [] => []
  | sentence :: rest =>
      if Nat.ltb 300 (length sentence)
         && negb (if in_dec (list_eq_dec Nat.eq_dec) sentence unique_sentences
                  then true else false)
      then preprocess sentence :: transform_loop preprocess rest (sentence :: unique_sentences)
      else transform_loop preprocess rest unique_sentences
  end.

Definition transform (preprocess : pystr -> pystr) (X_list : list pystr) : list pystr :=
  transform_loop preprocess X_list [].

(** The ASCII case functions: [str.isupper], [str.lower] on ASCII text *)
Definition is_upper_cp (c : nat) : bool := Nat.leb 65 c && Nat.leb c 90.
Definition is_lower_cp (c : nat) : bool := Nat.leb 97 c && Nat.leb c 122.
Definition lower_cp (c : nat) : nat := if is_upper_cp c then c + 32 else c.

(** [w.isupper()]: a cased character, and no lowercase one *)
Definition str_isupper (w : pystr) : bool :=
  existsb is_upper_cp w && negb (existsb is_lower_cp w).
Definition str_lower (w : pystr) : pystr := map lower_cp w.

(** [s.split(" ")]: the pieces between single spaces, empty ones included *)
Fixpoint split_go (cur : pystr) (s : pystr) : list pystr :=
  match s with
  | [] => [rev cur]
  | c :: r => if Nat.eqb c 32 then rev cur :: split_go [] r else split_go (c :: cur) r
  end.
Definition split_space (s : pystr) : list pystr := split_go [] s.

(** [" ".join(ws)] *)
Fixpoint join_space (ws : list pystr) : pystr :=
  match ws with
  | [] => []
  | [w] => w
  | w :: r => w ++ 32 :: join_space r
  end.

(** [Preprocessor.lower_but_keep_acronyms] (lines 149-153) *)
Definition lower_but_keep_acronyms (s : pystr) : pystr :=
  join_space (map (fun w => if str_isupper w && Nat.leb 2 (length w) then w else str_lower w)
                  (split_space s)).

Definition is_ascii (s : pystr) : Prop := Forall (fun c => c < 128) s.

(** One word of [lower_but_keep_acronyms] *)
Definition keep_or_lower (w : pystr) : pystr :=
  if str_isupper w && Nat.leb 2 (length w) then w else str_lower w.


(** ** Further example inputs *)

(** A symmetric run with two clusters on the all-ones 4 x 4 input, and a
    run with no attempt. *)
Definition ex_sq_ones : mat := mkArr 4 4 (fun _ _ => 1%Q).
Definition ex_cfg_sym : config := mkConfig ex_sq_ones 2 2 true 2 1 (Some 0%Z) false false.
Definition ex_cfg_noatt : config := mkConfig ex_ones 2 2 false 2 0 (Some 0%Z) false false.
(** three column clusters for two row clusters *)
Definition ex_C3 : mat := mkArr 3 2 (fun i j => if Nat.eqb i j then 1%Q else 0%Q).
(** distances of four rows to a centroid, and the rows' labels *)
Definition ex_ds : list (nat * Q) := [(2, (1 # 4)%Q); (0, (1 # 2)%Q); (3, 1%Q); (1, 2%Q)].
Definition ex_rep_labels : list nat := [0; 1; 0; 1].
(** a 4 x 2 distance matrix *)
Definition ex_AD : mat := mkArr 4 2 (fun i j => inject_Z (Z.of_nat ((i + 3 * j) mod 4))).
(** a generator drawing 1/2 from [random] and cycling through
    [low, high) in [integers] *)
Definition ex_gen : Generator := {|
  gen_state := nat;
  gen_random := fun g _ => (fun _ => (1 # 2)%Q, S g);
  gen_integers_draw := fun g low high _ =>
    (fun j => (low + Z.of_nat ((g + j) mod Z.to_nat (high - low)))%Z, S g)
|}.
(** labels whose most frequent one is 2, and a string with an acronym *)
Definition ex_fix_labels : list Z := [0; 2; 1; 2; 2]%Z.
Definition ex_acronyms : pystr := [72; 105; 32; 78; 65; 83; 65].

(* ================================================================ *)
(** * Proofs *)

(** ** Checking properties on concrete values *)

Ltac ok_value r d :=
  let E := fresh "E" in
  assert (E : r = Ok (res_get d r)) by (vm_compute; reflexivity).

Lemma default_rng_ok `{Backend} s e g : default_rng s e = Ok g -> g = rng_of_seed s e.
Proof.
  unfold default_rng. destruct s as [s|]; [destruct (Z.ltb s 0)|]; intro E;
    inversion E; reflexivity.
Qed.

(** [default_rng] succeeded in [E]: continue with the seeded generator *)
Lemma default_rng_cases `{Backend} s e :
  (default_rng s e = Ok (rng_of_seed s e) /\ forall z, s = Some z -> (0 <= z)%Z) \/
  (default_rng s e = Err ValueError /\ exists z, s = Some z /\ (z < 0)%Z).
Proof.
  unfold default_rng. destruct s as [z|]; [destruct (Z.ltb_spec z 0)|].
  - right. split; [reflexivity|]. exists z. auto.
  - left. split; [reflexivity|]. intros z' Hz. injection Hz as <-. lia.
  - left. split; [reflexivity|]. discriminate.
Qed.

Ltac peel_rng E :=
  match type of E with
  | context [default_rng ?s ?e] =>
      let g := fresh "g" in let Eg := fresh "Eg" in
      destruct (default_rng s e) as [g|?] eqn:Eg; cbn [bind] in E; [|discriminate];
      apply default_rng_ok in Eg; subst g
  end.

Lemma forall_ij_spec r c p :
  forall_ij r c p = true -> forall i j, i < r -> j < c -> p i j = true.
Proof.
  unfold forall_ij. intros H i j Hi Hj.
  rewrite forallb_forall in H.
  assert (Hi' : In i (seq 0 r)) by (apply in_seq; lia).
  specialize (H i Hi'). rewrite forallb_forall in H. apply H. apply in_seq. lia.
Qed.

Lemma nonnegb_spec M : nonnegb M = true -> nonneg M.
Proof.
  unfold nonnegb, nonneg. intros H i j Hi Hj.
  apply Qle_bool_iff. exact (forall_ij_spec _ _ _ H i j Hi Hj).
Qed.

Lemma nonneg_storeb_spec st : nonneg_storeb st = true -> nonneg_store st.
Proof.
  unfold nonneg_storeb, nonneg_store. intro H.
  apply andb_true_iff in H as [H H3]. apply andb_true_iff in H as [H1 H2].
  split; [|split]; apply nonnegb_spec; assumption.
Qed.

Lemma nonzerob_spec M : nonzerob M = true -> nonzero_entries M.
Proof.
  unfold nonzerob, nonzero_entries. intros H i j Hi Hj Heq.
  pose proof (forall_ij_spec _ _ _ H i j Hi Hj) as G.
  cbv beta in G. apply Qeq_bool_iff in Heq. rewrite Heq in G. discriminate.
Qed.

Lemma res_all_spec {A} (p : A -> bool) r a : res_all p r = true -> r = Ok a -> p a = true.
Proof. intros H ->. exact H. Qed.

Lemma denominators_nonzerob_spec Z st sym :
  denominators_nonzerob Z st sym = true -> denominators_nonzero Z st sym.
Proof.
  unfold denominators_nonzerob, denominators_nonzero. destruct sym; cbn [negb]; intro H.
  - apply andb_true_iff in H as [H1 H2]. split.
    + intros D E. apply nonzerob_spec. exact (res_all_spec _ _ _ H1 E).
    + intros st1 D E1 E2. apply nonzerob_spec.
      pose proof (res_all_spec _ _ _ H2 E1) as G. exact (res_all_spec _ _ _ G E2).
  - apply andb_true_iff in H as [H1 H2]. split; [|split].
    + intros D E. apply nonzerob_spec. exact (res_all_spec _ _ _ H1 E).
    + intros st1 D E1 E2. apply nonzerob_spec.
      pose proof (res_all_spec _ _ _ H2 E1) as G. apply andb_true_iff in G as [G _].
      exact (res_all_spec _ _ _ G E2).
    + intros st1 st2 D E1 E2 E3. apply nonzerob_spec.
      pose proof (res_all_spec _ _ _ H2 E1) as G. apply andb_true_iff in G as [_ G].
      pose proof (res_all_spec _ _ _ G E2) as G'. exact (res_all_spec _ _ _ G' E3).
Qed.

Lemma forallb_denominators_nonzero Z sym hist :
  forallb (fun s => denominators_nonzerob Z s sym) hist = true ->
  forall s, In s hist -> denominators_nonzero Z s sym.
Proof.
  intros H s Hs. rewrite forallb_forall in H. apply denominators_nonzerob_spec. auto.
Qed.

(** ** Shape lemmas *)

Lemma nth_map_seq {A} (g : nat -> A) r i d : i < r -> nth i (map g (seq 0 r)) d = g i.
Proof.
  intro Hi. rewrite nth_indep with (d' := g 0) by (rewrite length_map, length_seq; lia).
  rewrite map_nth, seq_nth by lia. reflexivity.
Qed.

Lemma tabulate_get {A} (d : A) r c f i j :
  i < r -> j < c -> tabulate d r c f i j = f i j.
Proof.
  intros Hi Hj. unfold tabulate. rewrite !nth_map_seq by lia. reflexivity.
Qed.

Lemma bdim_same a : bdim a a = Some a.
Proof. unfold bdim. now rewrite Nat.eqb_refl. Qed.

Lemma matmul_shape A B M :
  matmul A B = Ok M -> nc A = nr B /\ nr M = nr A /\ nc M = nc B.
Proof.
  unfold matmul. destruct (Nat.eqb_spec (nc A) (nr B)); intro H; inversion H; subst; auto.
Qed.

Lemma zipb_shape {A B C} (f : A -> B -> C) X Y M :
  zipb f X Y = Ok M ->
  bdim (nr X) (nr Y) = Some (nr M) /\ bdim (nc X) (nc Y) = Some (nc M).
Proof.
  unfold zipb. destruct (bdim (nr X) (nr Y)) eqn:E1, (bdim (nc X) (nc Y)) eqn:E2;
    intro H; inversion H; subst; auto.
Qed.

Lemma zipb_same_shape {A B C} (f : A -> B -> C) X Y M :
  nr Y = nr X -> nc Y = nc X -> zipb f X Y = Ok M -> nr M = nr X /\ nc M = nc X.
Proof.
  intros Hr Hc H. apply zipb_shape in H. rewrite Hr, Hc, !bdim_same in H.
  destruct H as [H1 H2]. inversion H1. inversion H2. auto.
Qed.

Lemma mult_update_shape X num den M :
  nr num = nr X -> nc num = nc X -> nr den = nr X -> nc den = nc X ->
  mult_update X num den = Ok M -> nr M = nr X /\ nc M = nc X.
Proof.
  unfold mult_update, emul, ediv. intros H1 H2 H3 H4 H.
  destruct (zipb _ X num) as [P|e] eqn:E; simpl in H; [|discriminate].
  apply zipb_same_shape in E; auto. destruct E as [E1 E2].
  apply zipb_same_shape in H; [|congruence|congruence]. lia.
Qed.

Lemma assign_same t X : nr X = nr t -> nc X = nc t -> assign t X = Ok X.
Proof. intros H1 H2. unfold assign. now rewrite H1, H2, !Nat.eqb_refl. Qed.

Lemma mmc_cons A B Bs : mmc A (B :: Bs) = (X <- matmul A B ;; mmc X Bs).
Proof.
  unfold mmc. simpl. destruct (matmul A B); simpl; [reflexivity|].
  induction Bs; simpl; auto.
Qed.

Lemma mmc_nil A : mmc A [] = Ok A.
Proof. reflexivity. Qed.

Ltac mm_shapes :=
  repeat match goal with
  | H : matmul _ _ = Ok _ |- _ =>
      let a := fresh "Ha" in let b := fresh "Hb" in let c := fresh "Hc" in
      destruct (matmul_shape _ _ _ H) as [a [b c]]; clear H
  end.

(** [peel] destructs the first bind of the goal whose scrutinee is closed. *)
Ltac peel :=
  match goal with
  | |- context [bind ?m _] =>
      let E := fresh "E" in
      destruct m eqn:E; cbn [bind res_map]; [| reflexivity]
  end.

Ltac peel_mm :=
  match goal with
  | |- context [matmul ?A ?B] =>
      let E := fresh "E" in
      destruct (matmul A B) eqn:E; cbn [bind res_map]; [| reflexivity]
  | |- context [mult_update ?X ?n ?d] =>
      let E := fresh "E" in
      destruct (mult_update X n d) eqn:E; cbn [bind res_map]; [| reflexivity]
  end.

Ltac mu_shape :=
  match goal with
  | H : mult_update ?X ?n ?d = Ok ?M |- _ =>
      let a := fresh "Hu" in
      assert (a : nr M = nr X /\ nc M = nc X)
        by (apply (mult_update_shape X n d M); cbn [T nr nc] in *; [lia .. | exact H]);
      clear H
  end.

(** C1: one asymmetric iteration replaces R by R * (Z C^T B^T) / (R B C C^T B^T)
    from the previous B and C, then B by B * (R^T Z C^T) / (R^T R B C C^T)
    from the new R and the previous C, then C by C * (B^T R^T Z) / (B^T R^T R B C)
    from the new R and the new B. *)
Theorem aux_asymmetric_update_order (Z R B C : mat)
  (Hn : nr R = nr Z) (Hk : nc R = nr B) (Hl : nc B = nr C) (Hm : nc C = nc Z) :
  attempt_coclustering_aux Z (mkStore R B (OwnC C)) false
  = res_map store_of (nbvd_step_spec Z R B C).
Proof.
  unfold attempt_coclustering_aux, nbvd_step_spec, upd_R, upd_B, upd_C,
    num_R, den_R, num_B, den_B, num_C, den_C, getC; cbn [negb sR sB sC].
  unfold mmc; cbn [fold_left bind].
  repeat peel_mm. mm_shapes. mu_shape.
  unfold write_R; rewrite assign_same by (cbn [sR sB sC nr nc] in *; lia); cbn [bind sR sB sC].
  repeat peel_mm. mm_shapes. mu_shape.
  unfold write_B; rewrite assign_same by (cbn [sR sB sC nr nc] in *; lia); cbn [bind sR sB sC].
  repeat peel_mm. mm_shapes. mu_shape.
  unfold write_C; cbn [sC]; rewrite assign_same by (cbn [T nr nc] in *; lia).
  reflexivity.
Qed.

Lemma aux_asymmetric_update_order_witness :
  attempt_coclustering_aux ex_Z ex_store false
  = res_map store_of (nbvd_step_spec ex_Z ex_R ex_B ex_C).
Proof. apply (aux_asymmetric_update_order ex_Z ex_R ex_B ex_C); reflexivity. Defined.

(** ** Convergence loop *)

Lemma norm_at_app_le norms x j :
  j <= length norms -> norm_at (norms ++ [x]) j = norm_at norms j.
Proof.
  intro Hj. destruct j as [|j]; simpl; [reflexivity|].
  rewrite app_nth1 by lia. reflexivity.
Qed.

Lemma norm_at_app_last norms x :
  norm_at (norms ++ [x]) (S (length norms)) = Fin x.
Proof. simpl. rewrite nth_middle. reflexivity. Qed.

Definition loop_guard (iter_max : Z) (i : nat) (prev cur : fnorm) : bool :=
  Nat.eqb i 0 || (Z.ltb (Z.of_nat i) iter_max && fle cur prev).

Section LoopFacts.
Context `{Backend}.

Lemma conv_loop_inv fuel iter_max Z sym i prev cur st norms hist out :
  length norms = i ->
  cur = norm_at norms i -> prev = norm_at norms (i - 1) ->
  (forall j, 1 <= j < i ->
     (Z.of_nat j < iter_max)%Z /\ fle (norm_at norms j) (norm_at norms (j - 1)) = true) ->
  Z.to_nat iter_max + 1 < fuel + i ->
  conv_loop fuel iter_max Z sym i prev cur st norms hist = Ok out ->
  length (lo_norms out) = lo_iter out /\ i <= lo_iter out /\
  lo_norm out = norm_at (lo_norms out) (lo_iter out) /\
  (forall j, 1 <= j < lo_iter out ->
     (Z.of_nat j < iter_max)%Z /\
     fle (norm_at (lo_norms out) j) (norm_at (lo_norms out) (j - 1)) = true) /\
  loop_guard iter_max (lo_iter out)
    (norm_at (lo_norms out) (lo_iter out - 1)) (norm_at (lo_norms out) (lo_iter out)) = false.
Proof.
  revert i prev cur st norms hist.
  induction fuel as [|fuel IH]; intros i prev cur st norms hist Hlen Hcur Hprev Hall Hfuel Hrun.
  - simpl in Hrun. inversion Hrun; subst; clear Hrun. cbn [lo_norms lo_iter lo_norm].
    split; [auto|]. split; [lia|]. split; [auto|]. split; [exact Hall|].
    unfold loop_guard. apply orb_false_iff. split.
    + apply Nat.eqb_neq. lia.
    + apply andb_false_iff. left. apply Z.ltb_ge. lia.
  - cbn [conv_loop] in Hrun.
    destruct (Nat.eqb i 0 || (Z.ltb (Z.of_nat i) iter_max && fle cur prev)) eqn:G.
    + destruct (attempt_coclustering_aux Z st sym) as [st'|e] eqn:Ea; [|discriminate].
      cbn [bind] in Hrun.
      destruct (recon_norm Z st') as [nrm|e] eqn:En; [|discriminate].
      cbn [bind] in Hrun.
      apply IH in Hrun.
      * destruct Hrun as (A1 & A2 & A3 & A4 & A5).
        split; [exact A1|]. split; [lia|]. split; [exact A3|]. split; [exact A4|exact A5].
      * rewrite length_app; simpl; lia.
      * rewrite <- Hlen, norm_at_app_last. reflexivity.
      * replace (S i - 1) with i by lia. rewrite norm_at_app_le by lia. auto.
      * intros j Hj. rewrite !norm_at_app_le by lia.
        destruct (Nat.eq_dec j i) as [->|Hne].
        -- rewrite <- Hcur. replace (i - 1) with (i - 1) by reflexivity. rewrite <- Hprev.
           apply orb_true_iff in G. destruct G as [G|G].
           ++ apply Nat.eqb_eq in G. lia.
           ++ apply andb_true_iff in G. destruct G as [G1 G2].
              split; [apply Z.ltb_lt; exact G1 | exact G2].
        -- apply Hall. lia.
      * lia.
    + inversion Hrun; subst; clear Hrun. cbn [lo_norms lo_iter lo_norm].
      split; [auto|]. split; [lia|]. split; [auto|]. split; [exact Hall|].
      unfold loop_guard. exact G.
Qed.

End LoopFacts.

(** C2: every attempt performs at least one update, and after the update
    that brings the count to [j], no further update happens if
    [j >= iter_max] or the norm after it strictly exceeds the norm before
    it; the loop stops only when its guard fails. *)
Theorem attempt_stops_on_increase `{Backend} iter_max Z st sym out :
  attempt_coclustering iter_max Z st sym = Ok out ->
  1 <= lo_iter out /\
  (forall j, 1 <= j <= lo_iter out ->
     (iter_max <= Z.of_nat j)%Z \/
     fle (norm_at (lo_norms out) j) (norm_at (lo_norms out) (j - 1)) = false ->
     j = lo_iter out) /\
  loop_guard iter_max (lo_iter out)
    (norm_at (lo_norms out) (lo_iter out - 1)) (norm_at (lo_norms out) (lo_iter out)) = false.
Proof.
  unfold attempt_coclustering. intro Hrun.
  apply conv_loop_inv in Hrun; auto; try lia.
  destruct Hrun as (_ & _ & _ & Hall & Hg).
  assert (Hpos : 1 <= lo_iter out).
  { destruct (lo_iter out) eqn:E; [|lia].
    unfold loop_guard in Hg. simpl in Hg. discriminate. }
  split; [exact Hpos|]. split; [|exact Hg].
  intros j Hj Hstop. destruct (Nat.eq_dec j (lo_iter out)) as [|Hne]; [assumption|].
  destruct (Hall j ltac:(lia)) as [A1 A2].
  destruct Hstop as [Hs|Hs]; [lia|congruence].
Qed.

Lemma attempt_stops_on_increase_witness :
  ok_then (@attempt_coclustering ex_backend 2 ex_Z ex_store false) (fun out =>
    1 <= lo_iter out /\
    (forall j, 1 <= j <= lo_iter out ->
       (2 <= Z.of_nat j)%Z \/
       fle (norm_at (lo_norms out) j) (norm_at (lo_norms out) (j - 1)) = false ->
       j = lo_iter out) /\
    loop_guard 2 (lo_iter out)
      (norm_at (lo_norms out) (lo_iter out - 1)) (norm_at (lo_norms out) (lo_iter out)) = false).
Proof.
  ok_value (@attempt_coclustering ex_backend 2 ex_Z ex_store false) (mkLoopOut ex_store Inf 0 [] []).
  unfold ok_then. rewrite E.
  exact (@attempt_stops_on_increase ex_backend 2 ex_Z ex_store false _ E).
Defined.

(** ** Non-negativity of the multiplicative update *)

Lemma Qplus_nonneg' a b : (0 <= a -> 0 <= b -> 0 <= a + b)%Q.
Proof.
  intros Ha Hb. apply Qle_trans with (0 + 0)%Q; [apply Qle_refl|].
  apply Qplus_le_compat; assumption.
Qed.

Lemma sumQ_nonneg (n : nat) f : (forall t, t < n -> (0 <= f t)%Q) -> (0 <= sumQ n f)%Q.
Proof.
  induction n as [|n IH]; intro Hf; simpl; [apply Qle_refl|].
  apply Qplus_nonneg'; [apply IH; intros; apply Hf; lia | apply Hf; lia].
Qed.

Lemma matmul_nonneg A B M : nonneg A -> nonneg B -> matmul A B = Ok M -> nonneg M.
Proof.
  unfold matmul. intros HA HB H. destruct (Nat.eqb_spec (nc A) (nr B)) as [E|E];
    [|discriminate]. inversion H; subst; clear H.
  intros i j Hi Hj. cbn [get nr nc] in *. rewrite tabulate_get by lia.
  rewrite Qred_correct. apply sumQ_nonneg. intros t Ht. apply Qmult_le_0_compat; [apply HA | apply HB]; lia.
Qed.

Lemma T_nonneg M : nonneg M -> nonneg (T M).
Proof. intros HM i j Hi Hj. apply HM; cbn [T nr nc] in *; lia. Qed.

Lemma mmc_nonneg A Bs M :
  nonneg A -> Forall nonneg Bs -> mmc A Bs = Ok M -> nonneg M.
Proof.
  revert A. induction Bs as [|B Bs IH]; intros A HA HBs H.
  - rewrite mmc_nil in H. inversion H; subst; assumption.
  - rewrite mmc_cons in H. inversion HBs; subst.
    destruct (matmul A B) as [X|e] eqn:E; [|discriminate]. cbn [bind] in H.
    apply (IH X); auto. exact (matmul_nonneg A B X HA H2 E).
Qed.

Lemma bidx_lt a b r i : bdim a b = Some r -> i < r -> bidx a i < a /\ bidx b i < b.
Proof.
  unfold bdim, bidx. intros H Hi.
  destruct (Nat.eqb_spec a b) as [->|Hab].
  - inversion H; subst. destruct (Nat.eqb_spec r 1); lia.
  - destruct (Nat.eqb_spec a 1) as [->|Ha1].
    + inversion H; subst. destruct (Nat.eqb_spec r 1); simpl; lia.
    + destruct (Nat.eqb_spec b 1) as [->|Hb1]; [|discriminate].
      inversion H; subst. simpl. lia.
Qed.

Lemma zipb_nonneg (f : Q -> Q -> Q) X Y M :
  (forall x y, 0 <= x -> 0 <= y -> 0 <= f x y)%Q ->
  nonneg X -> nonneg Y -> zipb f X Y = Ok M -> nonneg M.
Proof.
  unfold zipb. intros Hf HX HY H.
  destruct (bdim (nr X) (nr Y)) as [r|] eqn:E1; [|discriminate].
  destruct (bdim (nc X) (nc Y)) as [c|] eqn:E2; [|discriminate].
  inversion H; subst; clear H. intros i j Hi Hj. cbn [get nr nc] in *.
  rewrite tabulate_get by lia. destruct (bidx_lt _ _ _ _ E1 Hi). destruct (bidx_lt _ _ _ _ E2 Hj).
  apply Hf; [apply HX | apply HY]; assumption.
Qed.

Lemma Qdiv_nonneg x y : (0 <= x -> 0 <= y -> 0 <= x / y)%Q.
Proof. intros Hx Hy. unfold Qdiv. apply Qmult_le_0_compat; [|apply Qinv_le_0_compat]; assumption. Qed.

Lemma mult_update_nonneg X num den M :
  nonneg X -> nonneg num -> nonneg den -> mult_update X num den = Ok M -> nonneg M.
Proof.
  unfold mult_update, emul, ediv. intros HX Hn Hd H.
  destruct (zipb _ X num) as [P|e] eqn:E; [|discriminate]. cbn [bind] in H.
  eapply zipb_nonneg; [ | | exact Hd | exact H].
  { intros x y Hx Hy. rewrite Qred_correct. apply Qdiv_nonneg; assumption. }
  eapply zipb_nonneg; [ | exact HX | exact Hn | exact E].
  intros x y Hx Hy. rewrite Qred_correct. apply Qmult_le_0_compat; assumption.
Qed.

Lemma assign_nonneg t X M : nonneg X -> assign t X = Ok M -> nonneg M.
Proof.
  unfold assign. intros HX H.
  destruct (Nat.eqb (nr X) (nr t) && Nat.eqb (nc X) (nc t)) eqn:E1.
  { inversion H; subst; assumption. }
  destruct ((Nat.eqb (nr X) (nr t) || Nat.eqb (nr X) 1)
            && (Nat.eqb (nc X) (nc t) || Nat.eqb (nc X) 1)) eqn:E2; [|discriminate].
  inversion H; subst; clear H. intros i j Hi Hj. cbn [get nr nc] in *.
  apply andb_true_iff in E2. destruct E2 as [Er Ec].
  apply HX; unfold bidx.
  - apply orb_true_iff in Er. destruct Er as [Er|Er]; apply Nat.eqb_eq in Er;
      destruct (Nat.eqb_spec (nr X) 1); lia.
  - apply orb_true_iff in Ec. destruct Ec as [Ec|Ec]; apply Nat.eqb_eq in Ec;
      destruct (Nat.eqb_spec (nc X) 1); lia.
Qed.

Ltac nonneg_step :=
  repeat match goal with
  | H : nonneg_store ?st |- _ => destruct H as (? & ? & ?)
  end.

Lemma upd_R_nonneg Z st st' :
  nonneg Z -> nonneg_store st -> upd_R Z st = Ok st' -> nonneg_store st'.
Proof.
  unfold upd_R, num_R, den_R, write_R. intros HZ Hst H. nonneg_step.
  destruct (mmc Z _) as [num|e] eqn:En; [|discriminate]; cbn [bind] in H.
  destruct (mmc (sR st) _) as [den|e] eqn:Ed; [|discriminate]; cbn [bind] in H.
  destruct (mult_update _ _ _) as [X|e] eqn:Eu; [|discriminate]; cbn [bind] in H.
  destruct (assign _ _) as [R'|e] eqn:Ea; [|discriminate]; cbn [bind] in H.
  inversion H; subst; clear H.
  assert (HR' : nonneg R').
  { eapply assign_nonneg; [|exact Ea]. refine (mult_update_nonneg _ _ _ _ _ _ _ Eu); auto.
    - refine (mmc_nonneg _ _ _ _ _ En); [exact HZ|]. repeat constructor; apply T_nonneg; auto.
    - refine (mmc_nonneg _ _ _ _ _ Ed); [auto|]. repeat constructor; try apply T_nonneg; auto. }
  unfold nonneg_store, getC in *; cbn [sR sB sC] in *.
  destruct (sC st); split; auto; split; auto. apply T_nonneg; auto.
Qed.

Lemma upd_S_nonneg Z st st' :
  nonneg Z -> nonneg_store st -> upd_S Z st = Ok st' -> nonneg_store st'.
Proof.
  unfold upd_S, num_S, den_S, write_R. intros HZ Hst H. nonneg_step.
  destruct (mmc Z _) as [num|e] eqn:En; [|discriminate]; cbn [bind] in H.
  destruct (mmc (sR st) _) as [den|e] eqn:Ed; [|discriminate]; cbn [bind] in H.
  destruct (mult_update _ _ _) as [X|e] eqn:Eu; [|discriminate]; cbn [bind] in H.
  destruct (assign _ _) as [R'|e] eqn:Ea; [|discriminate]; cbn [bind] in H.
  inversion H; subst; clear H.
  assert (HR' : nonneg R').
  { eapply assign_nonneg; [|exact Ea]. refine (mult_update_nonneg _ _ _ _ _ _ _ Eu); auto.
    - refine (mmc_nonneg _ _ _ _ _ En); [exact HZ|]. repeat constructor; auto.
    - refine (mmc_nonneg _ _ _ _ _ Ed); [auto|]. repeat constructor; try apply T_nonneg; auto. }
  unfold nonneg_store, getC in *; cbn [sR sB sC] in *.
  destruct (sC st); split; auto; split; auto. apply T_nonneg; auto.
Qed.

Lemma upd_B_nonneg Z st st' :
  nonneg Z -> nonneg_store st -> upd_B Z st = Ok st' -> nonneg_store st'.
Proof.
  unfold upd_B, num_B, den_B, write_B. intros HZ Hst H. nonneg_step.
  destruct (mmc (T (sR st)) [Z; T (getC st)]) as [num|e] eqn:En; [|discriminate]; cbn [bind] in H.
  destruct (mmc (T (sR st)) [sR st; sB st; getC st; T (getC st)]) as [den|e] eqn:Ed; [|discriminate]; cbn [bind] in H.
  destruct (mult_update _ _ _) as [X|e] eqn:Eu; [|discriminate]; cbn [bind] in H.
  destruct (assign _ _) as [B'|e] eqn:Ea; [|discriminate]; cbn [bind] in H.
  inversion H; subst; clear H.
  assert (HB' : nonneg B').
  { eapply assign_nonneg; [|exact Ea]. refine (mult_update_nonneg _ _ _ _ _ _ _ Eu); auto.
    - refine (mmc_nonneg _ _ _ _ _ En); [apply T_nonneg; auto|].
      repeat constructor; try apply T_nonneg; auto.
    - refine (mmc_nonneg _ _ _ _ _ Ed); [apply T_nonneg; auto|].
      repeat constructor; try apply T_nonneg; auto. }
  unfold nonneg_store, getC in *; cbn [sR sB sC] in *. auto.
Qed.

Lemma upd_SB_nonneg Z st st' :
  nonneg Z -> nonneg_store st -> upd_SB Z st = Ok st' -> nonneg_store st'.
Proof.
  unfold upd_SB, num_SB, den_SB, write_B. intros HZ Hst H. nonneg_step.
  destruct (mmc (T (sR st)) [Z; sR st]) as [num|e] eqn:En; [|discriminate]; cbn [bind] in H.
  destruct (mmc (T (sR st)) [sR st; sB st; T (sR st); sR st]) as [den|e] eqn:Ed; [|discriminate]; cbn [bind] in H.
  destruct (mult_update _ _ _) as [X|e] eqn:Eu; [|discriminate]; cbn [bind] in H.
  destruct (assign _ _) as [B'|e] eqn:Ea; [|discriminate]; cbn [bind] in H.
  inversion H; subst; clear H.
  assert (HB' : nonneg B').
  { eapply assign_nonneg; [|exact Ea]. refine (mult_update_nonneg _ _ _ _ _ _ _ Eu); auto.
    - refine (mmc_nonneg _ _ _ _ _ En); [apply T_nonneg; auto|].
      repeat constructor; try apply T_nonneg; auto.
    - refine (mmc_nonneg _ _ _ _ _ Ed); [apply T_nonneg; auto|].
      repeat constructor; try apply T_nonneg; auto. }
  unfold nonneg_store, getC in *; cbn [sR sB sC] in *. auto.
Qed.

Lemma upd_C_nonneg Z st st' :
  nonneg Z -> nonneg_store st -> upd_C Z st = Ok st' -> nonneg_store st'.
Proof.
  unfold upd_C, num_C, den_C, write_C. intros HZ Hst H. nonneg_step.
  destruct (mmc (T (sB st)) [T (sR st); Z]) as [num|e] eqn:En; [|discriminate];
    cbn [bind] in H.
  destruct (mmc (T (sB st)) [T (sR st); sR st; sB st; getC st]) as [den|e] eqn:Ed; [|discriminate]; cbn [bind] in H.
  destruct (mult_update _ _ _) as [X|e] eqn:Eu; [|discriminate]; cbn [bind] in H.
  assert (HX : nonneg X).
  { refine (mult_update_nonneg _ _ _ _ _ _ _ Eu); auto.
    - refine (mmc_nonneg _ _ _ _ _ En); [apply T_nonneg; auto|].
      repeat constructor; try apply T_nonneg; auto.
    - refine (mmc_nonneg _ _ _ _ _ Ed); [apply T_nonneg; auto|].
      repeat constructor; try apply T_nonneg; auto. }
  unfold nonneg_store, getC in *. destruct (sC st) as [C|] eqn:Ec.
  - destruct (assign C X) as [C'|e] eqn:Ea; [|discriminate]; cbn [bind] in H.
    inversion H; subst; clear H. cbn [sR sB sC].
    split; auto. split; auto. eapply assign_nonneg; eauto.
  - destruct (assign _ X) as [Rt|e] eqn:Ea; [|discriminate]; cbn [bind] in H.
    inversion H; subst; clear H. cbn [sR sB sC].
    assert (nonneg Rt) by (eapply assign_nonneg; eauto).
    split; [apply T_nonneg; auto|]. split; [auto|]. apply T_nonneg, T_nonneg; auto.
Qed.

Lemma aux_nonneg Z st sym st' :
  nonneg Z -> nonneg_store st -> attempt_coclustering_aux Z st sym = Ok st' ->
  nonneg_store st'.
Proof.
  unfold attempt_coclustering_aux. intros HZ Hst H. destruct sym; cbn [negb] in H.
  - destruct (upd_S Z st) as [s1|e] eqn:E1; [|discriminate]; cbn [bind] in H.
    eapply upd_SB_nonneg; [exact HZ| |exact H]. eapply upd_S_nonneg; eauto.
  - destruct (upd_R Z st) as [s1|e] eqn:E1; [|discriminate]; cbn [bind] in H.
    destruct (upd_B Z s1) as [s2|e] eqn:E2; [|discriminate]; cbn [bind] in H.
    eapply upd_C_nonneg; [exact HZ| |exact H].
    eapply upd_B_nonneg; [exact HZ| |exact E2]. eapply upd_R_nonneg; eauto.
Qed.

Lemma conv_loop_nonneg `{Backend} fuel iter_max Z sym i prev cur st norms hist out :
  nonneg Z -> nonneg_store st -> Forall nonneg_store hist ->
  conv_loop fuel iter_max Z sym i prev cur st norms hist = Ok out ->
  nonneg_store (lo_store out) /\ Forall nonneg_store (lo_hist out).
Proof.
  revert i prev cur st norms hist.
  induction fuel as [|fuel IH]; intros i prev cur st norms hist HZ Hst Hh Hrun.
  - simpl in Hrun. inversion Hrun; subst. auto.
  - cbn [conv_loop] in Hrun.
    destruct (Nat.eqb i 0 || (Z.ltb (Z.of_nat i) iter_max && fle cur prev)).
    + destruct (attempt_coclustering_aux Z st sym) as [st'|e] eqn:Ea; [|discriminate].
      cbn [bind] in Hrun.
      destruct (recon_norm Z st') as [nrm|e]; [|discriminate]. cbn [bind] in Hrun.
      assert (Hst' : nonneg_store st') by (eapply aux_nonneg; eauto).
      eapply IH; [exact HZ|exact Hst'| |exact Hrun].
      apply Forall_app. split; auto.
    + inversion Hrun; subst. auto.
Qed.



(** ** Attempt Orchestrator *)

Lemma Qltb_iff a b : Qltb a b = true <-> (a < b)%Q.
Proof.
  unfold Qltb. rewrite negb_true_iff. split; intro H.
  - apply Qnot_le_lt. intro Hle. apply Qle_bool_iff in Hle. congruence.
  - destruct (Qle_bool b a) eqn:E; [|reflexivity].
    apply Qle_bool_iff in E. exfalso. exact (Qlt_not_le _ _ H E).
Qed.

Lemma Qltb_false a b : Qltb a b = false -> (b <= a)%Q.
Proof.
  intro H. apply Qnot_lt_le. intro Hlt. apply Qltb_iff in Hlt. congruence.
Qed.

Lemma mt_gt_trans x y z : mt_gt x y = true -> mt_gt y z = true -> mt_gt x z = true.
Proof.
  unfold mt_gt. destruct x as [|a b], y as [|c d], z as [|e f]; cbn [mt_mean];
    try discriminate; auto.
  rewrite !Qltb_iff. intros H1 H2. eapply Qlt_trans; eauto.
Qed.

Lemma mt_gt_le x y z : mt_gt x z = true -> mt_gt y z = false -> mt_gt x y = true.
Proof.
  unfold mt_gt. destruct x as [|a b], y as [|c d], z as [|e f]; cbn [mt_mean];
    try discriminate; auto.
  rewrite !Qltb_iff. intros H1 H2. apply Qltb_false in H2.
  eapply Qle_lt_trans; eauto.
Qed.

Lemma select_gt sh snh b a :
  mt_gt (ar_sil a) (best_sil b) = true ->
  select sh snh b a =
  mkBest (ar_norm a) (Some (ar_results a)) (ar_iter a) (ar_sil a)
    (if sh then Some (ar_hist a) else best_history b)
    (if snh then Some (ar_norms a) else norm_history b).
Proof. intro G. unfold select. rewrite G. reflexivity. Qed.

Lemma select_not_gt sh snh b a :
  mt_gt (ar_sil a) (best_sil b) = false -> select sh snh b a = b.
Proof. intro G. unfold select. rewrite G. reflexivity. Qed.

(** Folding [select] over the attempts either keeps the initial best, when
    no attempt beats it, or ends at the first attempt whose silhouette mean
    beats the initial best and every attempt before it, and that no later
    attempt beats. *)
Lemma fold_select_spec sh snh atts b :
  (fold_left (select sh snh) atts b = b /\
   forall a, In a atts -> mt_gt (ar_sil a) (best_sil b) = false) \/
  (exists j a, nth_error atts j = Some a /\
     mt_gt (ar_sil a) (best_sil b) = true /\
     (forall j' a', j' < j -> nth_error atts j' = Some a' ->
        mt_gt (ar_sil a) (ar_sil a') = true) /\
     (forall j' a', j < j' -> nth_error atts j' = Some a' ->
        mt_gt (ar_sil a') (ar_sil a) = false) /\
     core_best (fold_left (select sh snh) atts b)
     = (ar_norm a, Some (ar_results a), ar_iter a, ar_sil a)).
Proof.
  revert b. induction atts as [|x xs IH]; intro b.
  - left. split; [reflexivity|]. intros a [].
  - cbn [fold_left].
    destruct (mt_gt (ar_sil x) (best_sil b)) eqn:Gx.
    + pose proof (select_gt sh snh b x Gx) as Hs. rewrite Hs.
      destruct (IH (mkBest (ar_norm x) (Some (ar_results x)) (ar_iter x) (ar_sil x)
                  (if sh then Some (ar_hist x) else best_history b)
                  (if snh then Some (ar_norms x) else norm_history b)))
        as [[Hf Hn] | (j & a & Hj & Hgt & Hbef & Haft & Hc)];
        cbn [best_sil] in *.
      * right. exists 0, x. split; [reflexivity|]. split; [exact Gx|].
        split; [intros; lia|]. split.
        -- intros j' a' Hj' Ha'. destruct j' as [|j']; [lia|].
           apply Hn. eapply nth_error_In. exact Ha'.
        -- rewrite Hf. reflexivity.
      * right. exists (S j), a. split; [exact Hj|].
        split; [eapply mt_gt_trans; eauto|]. split.
        -- intros j' a' Hj' Ha'. destruct j' as [|j'].
           ++ cbn in Ha'. inversion Ha'; subst. exact Hgt.
           ++ apply (Hbef j'); [lia|exact Ha'].
        -- split; [|exact Hc].
           intros j' a' Hj' Ha'. destruct j' as [|j']; [lia|].
           apply (Haft j'); [lia|exact Ha'].
    + pose proof (select_not_gt sh snh b x Gx) as Hs. rewrite Hs.
      destruct (IH b) as [[Hf Hn] | (j & a & Hj & Hgt & Hbef & Haft & Hc)].
      * left. split; [exact Hf|]. intros a [<-|Ha]; auto.
      * right. exists (S j), a. split; [exact Hj|]. split; [exact Hgt|]. split.
        -- intros j' a' Hj' Ha'. destruct j' as [|j'].
           ++ cbn in Ha'. inversion Ha'; subst. eapply mt_gt_le; eauto.
           ++ apply (Hbef j'); [lia|exact Ha'].
        -- split; [|exact Hc].
           intros j' a' Hj' Ha'. destruct j' as [|j']; [lia|].
           apply (Haft j'); [lia|exact Ha'].
Qed.

Section OrchestratorFacts.
Context `{Backend}.

Lemma do_things_loop_fold k l sym im sh snh Z n g b :
  do_things_loop k l sym im sh snh Z n g b
  = res_map (fun atts => fold_left (select sh snh) atts b) (run_attempts k l sym im Z n g).
Proof.
  revert g b. induction n as [|n IH]; intros g b; [reflexivity|].
  cbn [do_things_loop run_attempts].
  destruct (run_attempt k l sym im Z g) as [[a g']|e]; cbn [bind res_map]; [|reflexivity].
  rewrite IH. destruct (run_attempts k l sym im Z n g'); reflexivity.
Qed.

Lemma run_attempts_length k l sym im Z n g atts :
  run_attempts k l sym im Z n g = Ok atts -> length atts = n.
Proof.
  revert g atts. induction n as [|n IH]; intros g atts E; cbn [run_attempts] in E.
  - inversion E. reflexivity.
  - destruct (run_attempt k l sym im Z g) as [[a g']|e]; cbn [bind] in E; [|discriminate].
    destruct (run_attempts k l sym im Z n g') as [rest|e] eqn:Er; cbn [bind] in E;
      [|discriminate].
    inversion E; subst. cbn [length]. f_equal. eapply IH. exact Er.
Qed.

Lemma attempt_iter_pos im Z st sym out :
  attempt_coclustering im Z st sym = Ok out -> 1 <= lo_iter out.
Proof.
  unfold attempt_coclustering. intro Hrun.
  apply conv_loop_inv in Hrun; auto; try lia.
  destruct Hrun as (_ & _ & _ & _ & Hg).
  destruct (lo_iter out) eqn:E; [|lia].
  unfold loop_guard in Hg. discriminate.
Qed.

Lemma conv_loop_norm fuel im Z sym i prev cur st norms hist out :
  (i <> 0 -> exists q, recon_norm Z st = Ok q /\ cur = Fin q) ->
  conv_loop fuel im Z sym i prev cur st norms hist = Ok out ->
  lo_iter out <> 0 ->
  exists q, recon_norm Z (lo_store out) = Ok q /\ lo_norm out = Fin q.
Proof.
  revert i prev cur st norms hist.
  induction fuel as [|fuel IH]; intros i prev cur st norms hist Hinv Hrun Hi.
  - cbn [conv_loop] in Hrun. inversion Hrun; subst. auto.
  - cbn [conv_loop] in Hrun.
    destruct (Nat.eqb i 0 || (Z.ltb (Z.of_nat i) im && fle cur prev)).
    + destruct (attempt_coclustering_aux Z st sym) as [st'|e]; [|discriminate].
      cbn [bind] in Hrun.
      destruct (recon_norm Z st') as [nrm|e] eqn:En; [|discriminate].
      cbn [bind] in Hrun.
      eapply IH; [|exact Hrun|exact Hi]. intros _. exists nrm. auto.
    + inversion Hrun; subst. auto.
Qed.

Lemma attempt_norm im Z st sym out :
  attempt_coclustering im Z st sym = Ok out ->
  exists q, recon_norm Z (lo_store out) = Ok q /\ lo_norm out = Fin q.
Proof.
  intro Hrun. pose proof (attempt_iter_pos _ _ _ _ _ Hrun) as Hpos.
  unfold attempt_coclustering in Hrun.
  eapply conv_loop_norm; [|exact Hrun|lia]. intro Hi. lia.
Qed.

Lemma recon_norm_factors Z st : recon_norm Z (store_of (factors st)) = recon_norm Z st.
Proof. reflexivity. Qed.

Lemma run_attempt_ok k l sym im Z g a g' :
  run_attempt k l sym im Z g = Ok (a, g') ->
  (exists r c, ar_sil a = MT r c) /\
  (exists q, recon_norm Z (store_of (ar_results a)) = Ok q /\ ar_norm a = Fin q).
Proof.
  unfold run_attempt, attempt_labels. intro E.
  destruct (init_factors k l sym Z g) as [[st g1]|e]; cbn [bind] in E; [|discriminate].
  destruct (attempt_coclustering im Z st sym) as [out|e] eqn:Eo; cbn [bind] in E;
    [|discriminate].
  destruct (factors (lo_store out)) as [[R B] C] eqn:Ef.
  destruct (get_labels_bicluster R C (Some B) Fancy) as [[[bic row] col]|e];
    cbn [bind] in E; [|discriminate].
  destruct (silhouette_score Z row) as [sr|e]; cbn [bind] in E; [|discriminate].
  destruct (silhouette_score (T Z) col) as [sc|e]; cbn [bind] in E; [|discriminate].
  inversion E; subst; clear E. cbn [ar_sil ar_results ar_norm].
  split; [eauto|]. rewrite recon_norm_factors. eapply attempt_norm. exact Eo.
Qed.

Lemma run_attempts_ok k l sym im Z n g atts :
  run_attempts k l sym im Z n g = Ok atts ->
  Forall (fun a => (exists r c, ar_sil a = MT r c) /\
    (exists q, recon_norm Z (store_of (ar_results a)) = Ok q /\ ar_norm a = Fin q)) atts.
Proof.
  revert g atts. induction n as [|n IH]; intros g atts E; cbn [run_attempts] in E.
  - inversion E. constructor.
  - destruct (run_attempt k l sym im Z g) as [[a g']|e] eqn:Ea; cbn [bind] in E;
      [|discriminate].
    destruct (run_attempts k l sym im Z n g') as [rest|e] eqn:Er; cbn [bind] in E;
      [|discriminate].
    inversion E; subst. constructor.
    + eapply run_attempt_ok. exact Ea.
    + eapply IH. exact Er.
Qed.

(** What a successful construction exposes, read off [__post_init__]. *)
Lemma NBVD_ok_inv cfg e md :
  NBVD_coclustering cfg e = Ok md ->
  exists b,
    do_things cfg (data cfg) (rng_of_seed (random_state cfg) e) = Ok b /\
    best_results b = Some (m_R md, m_B md, m_C md) /\
    m_best_norm md = best_norm b /\ m_best_iter md = best_iter b /\
    get_basis_vectors (m_R md) (m_B md) (m_C md) = Ok (m_basis_vectors md) /\
    get_labels_bicluster (m_R md) (m_C md) (Some (m_B md)) Fancy
      = Ok (m_biclusters md, m_row_labels md, m_column_labels md).
Proof.
  unfold NBVD_coclustering. cbv zeta. intro E. peel_rng E.
  destruct (symmetric cfg && negb (Nat.eqb (nr (data cfg)) (nc (data cfg))));
    cbn [bind] in E; [discriminate|].
  destruct (do_things cfg (data cfg) (rng_of_seed (random_state cfg) e)) as [b|e'] eqn:Eb;
    cbn [bind] in E; [|discriminate].
  destruct (best_results b) as [[[R B] C]|] eqn:Er; cbn [bind] in E; [|discriminate].
  destruct (get_basis_vectors R B C) as [bv|e'] eqn:Ebv; cbn [bind] in E; [|discriminate].
  destruct (get_labels_bicluster R C (Some B) Fancy) as [[[bic row] col]|e'] eqn:El;
    cbn [bind] in E; [|discriminate].
  destruct (get_cluster_assoc R B C) as [ca|e'] eqn:Ec; cbn [bind] in E; [|discriminate].
  inversion E; subst; clear E. cbn [m_R m_B m_C m_best_norm m_best_iter m_basis_vectors
    m_biclusters m_row_labels m_column_labels].
  exists b. repeat split; auto.
Qed.

(** The exposed factors, norm and iteration count are those of one
    attempt of the run: the first whose silhouette beats every attempt
    before it, and that no later attempt beats. *)
Lemma NBVD_best_attempt cfg e md :
  NBVD_coclustering cfg e = Ok md ->
  exists atts j a,
    run_attempts (n_row_clusters cfg) (n_col_clusters cfg) (symmetric cfg) (iter_max cfg)
      (data cfg) (Z.to_nat (n_attempts cfg)) (rng_of_seed (random_state cfg) e) = Ok atts /\
    nth_error atts j = Some a /\
    (forall j' a', j' < j -> nth_error atts j' = Some a' ->
       mt_gt (ar_sil a) (ar_sil a') = true) /\
    (forall j' a', j < j' -> nth_error atts j' = Some a' ->
       mt_gt (ar_sil a') (ar_sil a) = false) /\
    ar_results a = (m_R md, m_B md, m_C md) /\
    m_best_norm md = ar_norm a /\ m_best_iter md = ar_iter a.
Proof.
  intro E. destruct (NBVD_ok_inv _ _ _ E) as (b & Eb & Hr & Hn & Hi & _).
  unfold do_things in Eb. rewrite do_things_loop_fold in Eb.
  destruct (run_attempts _ _ _ _ _ _ _) as [atts|e'] eqn:Ea; cbn [res_map bind] in Eb;
    [|discriminate].
  inversion Eb; subst b; clear Eb.
  destruct (fold_select_spec (save_history cfg) (save_norm_history cfg) atts best_init)
    as [[Hf _] | (j & a & Hj & _ & Hbef & Haft & Hc)].
  - rewrite Hf in Hr. discriminate.
  - unfold core_best in Hc. inversion Hc as [[Hc1 Hc2 Hc3 Hc4]].
    exists atts, j, a. split; [reflexivity|]. split; [exact Hj|].
    split; [exact Hbef|]. split; [exact Haft|].
    rewrite Hc2 in Hr. inversion Hr. split; [reflexivity|].
    rewrite Hn, Hi, Hc1, Hc3. split; reflexivity.
Qed.

End OrchestratorFacts.

(** C4: in a successful construction the attempts of the run are compared
    by the arithmetic mean of their (row, column) silhouette pair; the
    exposed factors, final norm and iteration count are those of an
    attempt [j] whose mean is strictly greater than that of every earlier
    attempt and at least that of every later one (a later attempt with an
    equal mean does not replace it). *)
Theorem best_attempt_by_mean_silhouette `{Backend} cfg e md :
  NBVD_coclustering cfg e = Ok md ->
  exists atts j a r c,
    run_attempts (n_row_clusters cfg) (n_col_clusters cfg) (symmetric cfg) (iter_max cfg)
      (data cfg) (Z.to_nat (n_attempts cfg)) (rng_of_seed (random_state cfg) e) = Ok atts /\
    length atts = Z.to_nat (n_attempts cfg) /\
    nth_error atts j = Some a /\ ar_sil a = MT r c /\
    (forall j' a', nth_error atts j' = Some a' ->
       exists r' c', ar_sil a' = MT r' c' /\
         (j' < j -> ((r' + c') / 2 < (r + c) / 2)%Q) /\
         (j < j' -> ((r' + c') / 2 <= (r + c) / 2)%Q)) /\
    (m_R md, m_B md, m_C md) = ar_results a /\
    m_best_norm md = ar_norm a /\ m_best_iter md = ar_iter a.
Proof.
  intro E.
  destruct (NBVD_best_attempt _ _ _ E) as (atts & j & a & Ea & Hj & Hbef & Haft & Hr & Hn & Hi).
  pose proof (run_attempts_ok _ _ _ _ _ _ _ _ Ea) as Hok.
  rewrite Forall_forall in Hok.
  destruct (proj1 (Hok a (nth_error_In _ _ Hj))) as (r & c & Hsa).
  exists atts, j, a, r, c.
  split; [exact Ea|]. split; [eapply run_attempts_length; exact Ea|].
  split; [exact Hj|]. split; [exact Hsa|]. split.
  - intros j' a' Hj'.
    destruct (proj1 (Hok a' (nth_error_In _ _ Hj'))) as (r' & c' & Hsa').
    exists r', c'. split; [exact Hsa'|]. split.
    + intro Hlt. pose proof (Hbef j' a' Hlt Hj') as G.
      rewrite Hsa, Hsa' in G. unfold mt_gt in G. cbn [mt_mean] in G.
      apply Qltb_iff in G. exact G.
    + intro Hlt. pose proof (Haft j' a' Hlt Hj') as G.
      rewrite Hsa, Hsa' in G. unfold mt_gt in G. cbn [mt_mean] in G.
      apply Qltb_false in G. exact G.
  - split; [symmetry; exact Hr|]. split; assumption.
Qed.

Lemma best_attempt_by_mean_silhouette_witness :
  ok_then (@NBVD_coclustering ex_backend ex_cfg 0) (fun md =>
  exists atts j a r c,
    run_attempts (n_row_clusters ex_cfg) (n_col_clusters ex_cfg) (symmetric ex_cfg)
      (iter_max ex_cfg) (data ex_cfg) (Z.to_nat (n_attempts ex_cfg))
      (@rng_of_seed ex_backend (random_state ex_cfg) 0) = Ok atts /\
    length atts = Z.to_nat (n_attempts ex_cfg) /\
    nth_error atts j = Some a /\ ar_sil a = MT r c /\
    (forall j' a', nth_error atts j' = Some a' ->
       exists r' c', ar_sil a' = MT r' c' /\
         (j' < j -> ((r' + c') / 2 < (r + c) / 2)%Q) /\
         (j < j' -> ((r' + c') / 2 <= (r + c) / 2)%Q)) /\
    (m_R md, m_B md, m_C md) = ar_results a /\
    m_best_norm md = ar_norm a /\ m_best_iter md = ar_iter a).
Proof.
  ok_value (@NBVD_coclustering ex_backend ex_cfg 0) model0.
  unfold ok_then. rewrite E.
  exact (@best_attempt_by_mean_silhouette ex_backend ex_cfg 0 _ E).
Defined.



(** ** Label Extractor *)

Lemma bidx_id d i : i < d -> bidx d i = i.
Proof. unfold bidx. destruct (Nat.eqb_spec d 1); lia. Qed.

Lemma zipb_same_get {A B C} (f : A -> B -> C) X Y M :
  nr X = nr Y -> nc X = nc Y -> zipb f X Y = Ok M ->
  nr M = nr X /\ nc M = nc X /\
  forall i j, i < nr X -> j < nc X -> get M i j = f (get X i j) (get Y i j).
Proof.
  intros Hr Hc. unfold zipb. rewrite <- Hr, <- Hc, !bdim_same. intro E.
  inversion E; subst; clear E. cbn [nr nc get].
  split; [reflexivity|]. split; [reflexivity|].
  intros i j Hi Hj. rewrite tabulate_get by lia.
  rewrite !bidx_id by lia. reflexivity.
Qed.

Lemma mmc_hyp_cons A B Bs M :
  mmc A (B :: Bs) = Ok M -> exists X, matmul A B = Ok X /\ mmc X Bs = Ok M.
Proof.
  rewrite mmc_cons. destruct (matmul A B) as [X|e]; cbn [bind]; [|discriminate].
  intro H. exists X. auto.
Qed.

Ltac break_mmc :=
  repeat match goal with
  | H : mmc _ (_ :: _) = Ok _ |- _ =>
      let X := fresh "X" in let E1 := fresh "Em" in let E2 := fresh "Em" in
      destruct (mmc_hyp_cons _ _ _ _ H) as (X & E1 & E2); clear H
  | H : mmc _ [] = Ok _ |- _ => rewrite mmc_nil in H; inversion H; subst; clear H
  end.

(** The "fancy" adherence only succeeds when [k = l]: the diagonal
    matrices [np.diag(np.diag(.))] it multiplies by are [min(k, l)]
    square. *)
Lemma get_adherence_fancy_shapes R C B ra ca :
  get_adherence R C (Some B) Fancy = Ok (ra, ca) ->
  nr ra = nr R /\ nc ra = nc R /\ nr ca = nc C /\ nc ca = nr C /\ nc R = nr C.
Proof.
  unfold get_adherence. cbv zeta. intro H.
  destruct (mmc R [B; C]) as [X|e] eqn:EX; cbn [bind] in H; [|discriminate].
  destruct (matmul (T (ones (nr R) (nc R))) R) as [M1|e] eqn:E1; cbn [bind] in H;
    [|discriminate].
  destruct (matmul (T (ones (nr (T C)) (nc (T C)))) (T C)) as [M2|e] eqn:E2;
    cbn [bind] in H; [|discriminate].
  destruct (mmc (sdiv B (msum X)) [diag2 M2; ones (nr (diag2 M2)) (nc (diag2 M2))])
    as [M3|e] eqn:E3; cbn [bind] in H; [|discriminate].
  destruct (matmul R (diag2 M3)) as [U|e] eqn:E4; cbn [bind] in H; [|discriminate].
  destruct (mmc (T (ones (nr (diag2 M1)) (nc (diag2 M1)))) [diag2 M1; sdiv B (msum X)])
    as [M5|e] eqn:E5; cbn [bind] in H; [|discriminate].
  destruct (matmul (T C) (diag2 M5)) as [V|e] eqn:E6; cbn [bind] in H; [|discriminate].
  inversion H; subst; clear H.
  break_mmc. mm_shapes. cbn [T ones diag2 sdiv nr nc] in *. lia.
Qed.

Lemma argmax_rows_len A v : argmax_rows A = Ok v -> vlen v = nr A.
Proof.
  unfold argmax_rows. destruct (Nat.eqb (nc A) 0); intro H; inversion H; reflexivity.
Qed.

Lemma reshape_col_ok v n :
  vlen v = n -> reshape_col v n = Ok (mkArr n 1 (fun i _ => vget v i)).
Proof. intro Hv. unfold reshape_col. rewrite Hv, Nat.eqb_refl. reflexivity. Qed.

(** The masks [get_labels_bicluster] returns with the fancy adherence are
    read off the labels it returns. *)
Lemma get_labels_fancy_masks R C B br bc row col :
  get_labels_bicluster R C (Some B) Fancy = Ok ((br, bc), row, col) ->
  vlen row = nr R /\ vlen col = nc C /\
  nr br = nc R /\ nc br = nr R /\ nr bc = nr C /\ nc bc = nc C /\
  (forall i c, i < nr R -> c < nc R -> get br c i = Nat.eqb (vget row i) c) /\
  (forall j c, j < nc C -> c < nr C -> get bc c j = Nat.eqb (vget col j) c).
Proof.
  unfold get_labels_bicluster, bicluster_masks. cbv beta iota zeta. intro H.
  destruct (get_adherence R C (Some B) Fancy) as [[ra ca]|e] eqn:Ead; cbn [bind] in H;
    [|discriminate].
  destruct (get_adherence_fancy_shapes _ _ _ _ _ Ead) as (Ha1 & Ha2 & Ha3 & Ha4 & Hkl).
  destruct (argmax_rows ra) as [row'|e] eqn:Er; cbn [bind] in H; [|discriminate].
  destruct (argmax_rows ca) as [col'|e] eqn:Ec; cbn [bind] in H; [|discriminate].
  apply argmax_rows_len in Er. apply argmax_rows_len in Ec.
  rewrite reshape_col_ok in H by lia. cbn [bind] in H.
  match type of H with
  | context [eq_arr ?X ?Y] => destruct (eq_arr X Y) as [br0|e] eqn:Eb1; cbn [bind] in H;
      [|discriminate]
  end.
  rewrite reshape_col_ok in H by lia. cbn [bind] in H.
  match type of H with
  | context [eq_arr ?X ?Y] => destruct (eq_arr X Y) as [bc0|e] eqn:Eb2; cbn [bind] in H;
      [|discriminate]
  end.
  inversion H; subst; clear H.
  unfold eq_arr in Eb1, Eb2.
  apply zipb_same_get in Eb1; cbn [mgrid_j mgrid_i repeat_axis1 T nr nc] in *; [|lia|lia].
  apply zipb_same_get in Eb2; cbn [mgrid_j mgrid_i repeat_axis1 T nr nc] in *; [|lia|lia].
  destruct Eb1 as (B1 & B2 & B3). destruct Eb2 as (C1 & C2 & C3).
  split; [lia|]. split; [lia|].
  cbn [T nr nc get]. split; [lia|]. split; [lia|]. split; [lia|]. split; [lia|].
  split.
  - intros i c Hi Hc. rewrite B3 by lia. cbn [get mgrid_j repeat_axis1].
    apply Nat.eqb_sym.
  - intros j c Hj Hc. rewrite C3 by lia. cbn [get mgrid_i repeat_axis1 T].
    apply Nat.eqb_sym.
Qed.

(** C6: in every successful construction, the exposed masks are read off
    the exposed labels: the row mask (stored transposed, k x n) has entry
    [(c, i)] true exactly when the label of row [i] is [c], and the column
    mask (l x m) has entry [(c, j)] true exactly when the label of column
    [j] is [c]. *)
Theorem bicluster_masks_match_labels `{Backend} cfg e md :
  NBVD_coclustering cfg e = Ok md ->
  vlen (m_row_labels md) = nr (m_R md) /\ vlen (m_column_labels md) = nc (m_C md) /\
  nr (fst (m_biclusters md)) = nc (m_R md) /\ nc (fst (m_biclusters md)) = nr (m_R md) /\
  nr (snd (m_biclusters md)) = nr (m_C md) /\ nc (snd (m_biclusters md)) = nc (m_C md) /\
  (forall i c, i < nr (m_R md) -> c < nc (m_R md) ->
     get (fst (m_biclusters md)) c i = Nat.eqb (vget (m_row_labels md) i) c) /\
  (forall j c, j < nc (m_C md) -> c < nr (m_C md) ->
     get (snd (m_biclusters md)) c j = Nat.eqb (vget (m_column_labels md) j) c).
Proof.
  intro E. destruct (NBVD_ok_inv _ _ _ E) as (b & _ & _ & _ & _ & _ & El).
  destruct (m_biclusters md) as [br bc] eqn:Eb. cbn [fst snd].
  exact (get_labels_fancy_masks _ _ _ _ _ _ _ El).
Qed.

Lemma bicluster_masks_match_labels_witness :
  ok_then (@NBVD_coclustering ex_backend ex_cfg 0) (fun md =>
  vlen (m_row_labels md) = nr (m_R md) /\ vlen (m_column_labels md) = nc (m_C md) /\
  nr (fst (m_biclusters md)) = nc (m_R md) /\ nc (fst (m_biclusters md)) = nr (m_R md) /\
  nr (snd (m_biclusters md)) = nr (m_C md) /\ nc (snd (m_biclusters md)) = nc (m_C md) /\
  (forall i c, i < nr (m_R md) -> c < nc (m_R md) ->
     get (fst (m_biclusters md)) c i = Nat.eqb (vget (m_row_labels md) i) c) /\
  (forall j c, j < nc (m_C md) -> c < nr (m_C md) ->
     get (snd (m_biclusters md)) c j = Nat.eqb (vget (m_column_labels md) j) c)).
Proof.
  ok_value (@NBVD_coclustering ex_backend ex_cfg 0) model0.
  unfold ok_then. rewrite E.
  exact (@bicluster_masks_match_labels ex_backend ex_cfg 0 _ E).
Defined.

(** ** Determinism *)

Lemma select_core sh1 snh1 sh2 snh2 b1 b2 a :
  core_best b1 = core_best b2 ->
  core_best (select sh1 snh1 b1 a) = core_best (select sh2 snh2 b2 a).
Proof.
  intro Hc. assert (Hs : best_sil b1 = best_sil b2) by (unfold core_best in Hc; congruence).
  unfold select. rewrite Hs.
  destruct (mt_gt (ar_sil a) (best_sil b2)); [reflexivity|exact Hc].
Qed.

Lemma fold_select_core sh1 snh1 sh2 snh2 atts b1 b2 :
  core_best b1 = core_best b2 ->
  core_best (fold_left (select sh1 snh1) atts b1)
  = core_best (fold_left (select sh2 snh2) atts b2).
Proof.
  revert b1 b2. induction atts as [|a atts IH]; intros b1 b2 Hc; cbn [fold_left].
  - exact Hc.
  - apply IH. apply select_core. exact Hc.
Qed.



(** ** Which errors a construction raises *)

Lemma nocfg_bind {A B} (m : Res A) (k : A -> Res B) :
  nocfg m -> (forall a, nocfg (k a)) -> nocfg (bind m k).
Proof.
  unfold nocfg. intros H1 H2. destruct m as [a|e]; cbn [bind]; [apply H2|].
  intro E. apply H1. inversion E. reflexivity.
Qed.

Lemma nocfg_ok {A} (a : A) : nocfg (Ok a).
Proof. unfold nocfg. discriminate. Qed.

Lemma nocfg_value {A} : nocfg (@Err A ValueError).
Proof. unfold nocfg. discriminate. Qed.

Lemma nocfg_type {A} : nocfg (@Err A TypeError).
Proof. unfold nocfg. discriminate. Qed.

Lemma nocfg_err {A} e : e <> ConfigError -> nocfg (@Err A e).
Proof. unfold nocfg. congruence. Qed.

Create HintDb nocfg.

Ltac nocfg_tac :=
  repeat first
    [ solve [eauto with nocfg]
    | apply nocfg_bind; [ | intro ]
    | apply nocfg_ok | apply nocfg_value | apply nocfg_type
    | apply nocfg_err; discriminate
    | match goal with |- nocfg (match ?x with _ => _ end) => destruct x end ].

Lemma matmul_nocfg A B : nocfg (matmul A B).
Proof. unfold matmul. nocfg_tac. Qed.
#[local] Hint Resolve matmul_nocfg : nocfg.

Lemma mmc_nocfg A Bs : nocfg (mmc A Bs).
Proof.
  unfold mmc. generalize (@nocfg_ok _ A). generalize (Ok A : Res mat) as acc.
  induction Bs as [|B Bs IH]; intros acc Hacc; cbn [fold_left]; [exact Hacc|].
  apply IH. nocfg_tac.
Qed.
#[local] Hint Resolve mmc_nocfg : nocfg.

Lemma zipb_nocfg {A B C} (f : A -> B -> C) X Y : nocfg (zipb f X Y).
Proof. unfold zipb. nocfg_tac. Qed.
#[local] Hint Resolve zipb_nocfg : nocfg.

Lemma mult_update_nocfg X num den : nocfg (mult_update X num den).
Proof. unfold mult_update, emul, ediv. nocfg_tac. Qed.
#[local] Hint Resolve mult_update_nocfg : nocfg.

Lemma assign_nocfg t X : nocfg (assign t X).
Proof. unfold assign. nocfg_tac. Qed.
#[local] Hint Resolve assign_nocfg : nocfg.

Lemma write_nocfg st X :
  nocfg (write_R st X) /\ nocfg (write_B st X) /\ nocfg (write_C st X).
Proof. unfold write_R, write_B, write_C. split; [|split]; nocfg_tac. Qed.

Lemma aux_nocfg Z st sym : nocfg (attempt_coclustering_aux Z st sym).
Proof.
  pose proof write_nocfg as W.
  assert (HR : forall st X, nocfg (write_R st X)) by (intros; apply W).
  assert (HB : forall st X, nocfg (write_B st X)) by (intros; apply W).
  assert (HC : forall st X, nocfg (write_C st X)) by (intros; apply W).
  unfold attempt_coclustering_aux, upd_R, upd_B, upd_C, upd_S, upd_SB,
    num_R, den_R, num_B, den_B, num_C, den_C, num_S, den_S, num_SB, den_SB.
  nocfg_tac.
Qed.
#[local] Hint Resolve aux_nocfg : nocfg.

Lemma get_adherence_nocfg R C B method : nocfg (get_adherence R C (Some B) method).
Proof. unfold get_adherence. cbv zeta. nocfg_tac. Qed.
#[local] Hint Resolve get_adherence_nocfg : nocfg.

Lemma get_labels_nocfg R C B : nocfg (get_labels_bicluster R C (Some B) Fancy).
Proof.
  unfold get_labels_bicluster, bicluster_masks, argmax_rows, reshape_col, eq_arr.
  cbv beta iota zeta. nocfg_tac.
Qed.
#[local] Hint Resolve get_labels_nocfg : nocfg.

Lemma basis_assoc_nocfg R B C :
  nocfg (get_basis_vectors R B C) /\ nocfg (get_cluster_assoc R B C).
Proof. unfold get_basis_vectors, get_cluster_assoc. cbv zeta. split; nocfg_tac. Qed.

Section NoConfigError.
Context `{Backend}.

Lemma conv_loop_nocfg fuel im Z sym i prev cur st norms hist :
  nocfg (conv_loop fuel im Z sym i prev cur st norms hist).
Proof.
  revert i prev cur st norms hist.
  induction fuel as [|fuel IH]; intros; cbn [conv_loop]; unfold recon_norm, esub; nocfg_tac.
Qed.
#[local] Hint Resolve conv_loop_nocfg : nocfg.

Lemma do_things_loop_nocfg k l sym im sh snh Z n g b :
  nocfg (do_things_loop k l sym im sh snh Z n g b).
Proof.
  revert g b. induction n as [|n IH]; intros g b; cbn [do_things_loop]; [apply nocfg_ok|].
  unfold run_attempt, attempt_labels, init_factors, random_mat, const_mat,
    attempt_coclustering, silhouette_score.
  cbv zeta. nocfg_tac.
Qed.

End NoConfigError.

(** C5 (as the code has it): a construction raises the module's own
    configuration exception exactly when symmetric mode is requested on a
    non-square Z and the seed is one numpy's [default_rng] accepts (None
    or non-negative); a negative [random_state] makes [default_rng] raise
    [ValueError] first. The check comes before any clustering. Cluster
    counts are not checked (a count <= 0 surfaces later as a numpy or
    sklearn [ValueError]), and the adherence labeling is always given the
    B it needs. *)
Theorem config_error_iff_symmetric_nonsquare `{Backend} cfg e :
  NBVD_coclustering cfg e = Err ConfigError <->
  symmetric cfg = true /\ nr (data cfg) <> nc (data cfg) /\
  (forall s, random_state cfg = Some s -> (0 <= s)%Z).
Proof.
  destruct (default_rng_cases (random_state cfg) e) as [[Eg Hs]|[Eg (z & Hz & Hneg)]].
  - split.
    + unfold NBVD_coclustering. rewrite Eg. cbn [bind]. cbv zeta. intro E.
      destruct (symmetric cfg && negb (Nat.eqb (nr (data cfg)) (nc (data cfg)))) eqn:G.
      * apply andb_true_iff in G as [G1 G2]. apply negb_true_iff, Nat.eqb_neq in G2.
        split; [exact G1|]. split; [exact G2|exact Hs].
      * exfalso. cbn [bind] in E. revert E.
        match goal with |- ?r = _ -> False => change (nocfg r) end.
        pose proof basis_assoc_nocfg as BA.
        assert (HBV : forall R B C, nocfg (get_basis_vectors R B C)) by (intros; apply BA).
        assert (HCA : forall R B C, nocfg (get_cluster_assoc R B C)) by (intros; apply BA).
        unfold do_things. nocfg_tac. apply do_things_loop_nocfg.
    + intros (G1 & G2 & _). unfold NBVD_coclustering. rewrite Eg. cbn [bind]. cbv zeta.
      rewrite G1. apply Nat.eqb_neq in G2. rewrite G2. reflexivity.
  - split.
    + unfold NBVD_coclustering. rewrite Eg. cbn [bind]. discriminate.
    + intros (_ & _ & Hs). specialize (Hs z Hz). lia.
Qed.

Lemma config_error_iff_symmetric_nonsquare_witness :
  @NBVD_coclustering ex_backend
    (mkConfig ex_ones 2 2 true 2 2 (Some 0%Z) false false) 0 = Err ConfigError.
Proof.
  apply (proj2 (@config_error_iff_symmetric_nonsquare ex_backend
    (mkConfig ex_ones 2 2 true 2 2 (Some 0%Z) false false) 0)).
  split; [reflexivity|]. split; [cbn; lia|].
  intros s Hs. injection Hs as <-. lia.
Defined.

(** C5 counterexample: with no row cluster (k = 0) the construction does
    not stop with the configuration error; it fails later with numpy's
    [ValueError] ([np.argmax] over an empty axis). *)
Lemma cluster_count_zero_not_config_error :
  n_row_clusters ex_cfg_zero = 0%Z /\
  @NBVD_coclustering ex_backend ex_cfg_zero 0 = Err ValueError.
Proof. split; [reflexivity|]. vm_compute. reflexivity. Qed.

(** ** Basis vectors *)




(** ** Degenerate labels *)

Lemma silhouette_score_degenerate `{Backend} X v :
  n_distinct v < 2 -> silhouette_score X v = Err ValueError.
Proof.
  intro Hv. unfold silhouette_score.
  replace (Nat.leb 2 (n_distinct v)) with false by (symmetry; apply Nat.leb_gt; lia).
  rewrite andb_false_r. reflexivity.
Qed.

Lemma silhouette_score_err `{Backend} X v e : silhouette_score X v = Err e -> e = ValueError.
Proof.
  unfold silhouette_score. destruct (_ && _ && _); intro E; inversion E; reflexivity.
Qed.

Lemma do_things_loop_degenerate `{Backend} k l sym im sh snh Z j todo g g0 b
    out row col g' :
  j < todo ->
  rng_after_attempts k l sym im Z j g0 = Ok g ->
  attempt_labels k l sym im Z g = Ok (out, row, col, g') ->
  n_distinct row < 2 \/ n_distinct col < 2 ->
  do_things_loop k l sym im sh snh Z todo g0 b = Err ValueError.
Proof.
  revert todo g0 b. induction j as [|j IH]; intros todo g0 b Hj Hg Hl Hd.
  - cbn [rng_after_attempts] in Hg. injection Hg as <-.
    destruct todo as [|t]; [lia|]. cbn [do_things_loop]. unfold run_attempt.
    rewrite Hl. cbn [bind].
    destruct Hd as [Hr|Hc].
    + rewrite (silhouette_score_degenerate _ _ Hr). reflexivity.
    + destruct (silhouette_score Z row) as [sr|e0] eqn:E1; cbn [bind].
      * rewrite (silhouette_score_degenerate _ _ Hc). reflexivity.
      * apply silhouette_score_err in E1. subst e0. reflexivity.
  - cbn [rng_after_attempts] in Hg.
    destruct (run_attempt k l sym im Z g0) as [[a g1]|e] eqn:Ea; cbn [bind] in Hg;
      [|discriminate].
    destruct todo as [|t]; [lia|]. cbn [do_things_loop]. rewrite Ea. cbn [bind].
    apply (IH t g1); [lia|exact Hg|exact Hl|exact Hd].
Qed.




(* ================================================================ *)
(** * Proofs of the further properties *)


Lemma argmax_from_spec (f : nat -> Q) n : forall best j,
  best < j -> (forall t, t < j -> (f t <= f best)%Q) ->
  (forall t, t < best -> (f t < f best)%Q) ->
  argmax_from f best j n < j + n /\
  (forall t, t < j + n -> (f t <= f (argmax_from f best j n))%Q) /\
  (forall t, t < argmax_from f best j n -> (f t < f (argmax_from f best j n))%Q).
Proof.
  induction n as [|n IH]; intros best j Hb Hle Hlt; cbn [argmax_from].
  - rewrite Nat.add_0_r. auto.
  - replace (j + S n) with (S j + n) by lia.
    destruct (Qltb (f best) (f j)) eqn:G.
    + apply Qltb_iff in G. apply IH; [lia| |].
      * intros t Ht. destruct (Nat.eq_dec t j) as [->|]; [apply Qle_refl|].
        apply Qle_trans with (f best); [apply Hle; lia| apply Qlt_le_weak; exact G].
      * intros t Ht. apply Qle_lt_trans with (f best); [apply Hle; lia| exact G].
    + apply Qltb_false in G. apply IH; [lia| |exact Hlt].
      intros t Ht. destruct (Nat.eq_dec t j) as [->|]; [exact G|apply Hle; lia].
Qed.

Lemma argmax_rows_spec A v : argmax_rows A = Ok v ->
  0 < nc A /\ vlen v = nr A /\
  forall i, i < nr A ->
    vget v i < nc A /\
    (forall c, c < nc A -> (get A i c <= get A i (vget v i))%Q) /\
    (forall c, c < vget v i -> (get A i c < get A i (vget v i))%Q).
Proof.
  unfold argmax_rows. destruct (Nat.eqb_spec (nc A) 0) as [|Hn]; intro H; [discriminate|].
  inversion H; subst; clear H. cbn [vlen vget]. split; [lia|]. split; [reflexivity|].
  intros i Hi.
  destruct (argmax_from_spec (get A i) (nc A - 1) 0 1) as (H1 & H2 & H3);
    [lia | intros t Ht; replace t with 0 by lia; apply Qle_refl | intros t Ht; lia |].
  replace (1 + (nc A - 1)) with (nc A) in * by lia.
  auto.
Qed.

(** ** Errors that are only numpy / sklearn value errors *)

Lemma vonly_bind {A B} (m : Res A) (k : A -> Res B) :
  vonly m -> (forall a, vonly (k a)) -> vonly (bind m k).
Proof.
  intros H1 H2 e. destruct m as [a|e']; cbn [bind]; [apply H2|].
  intro E. apply H1. inversion E. reflexivity.
Qed.

Lemma vonly_ok {A} (a : A) : vonly (Ok a).
Proof. intros e E. discriminate. Qed.

Lemma vonly_value {A} : vonly (@Err A ValueError).
Proof. intros e E. inversion E. reflexivity. Qed.

Create HintDb vonly.

Ltac vonly_tac :=
  repeat first
    [ solve [eauto with vonly]
    | apply vonly_bind; [ | intro ]
    | apply vonly_ok | apply vonly_value
    | match goal with |- vonly (match ?x with _ => _ end) => destruct x end ].

Lemma matmul_vonly A B : vonly (matmul A B).
Proof. unfold matmul. vonly_tac. Qed.
#[local] Hint Resolve matmul_vonly : vonly.

Lemma mmc_vonly A Bs : vonly (mmc A Bs).
Proof.
  unfold mmc. generalize (@vonly_ok _ A). generalize (Ok A : Res mat) as acc.
  induction Bs as [|B Bs IH]; intros acc Hacc; cbn [fold_left]; [exact Hacc|].
  apply IH. vonly_tac.
Qed.
#[local] Hint Resolve mmc_vonly : vonly.

Lemma zipb_vonly {A B C} (f : A -> B -> C) X Y : vonly (zipb f X Y).
Proof. unfold zipb. vonly_tac. Qed.
#[local] Hint Resolve zipb_vonly : vonly.

Lemma mult_update_vonly X num den : vonly (mult_update X num den).
Proof. unfold mult_update, emul, ediv. vonly_tac. Qed.
#[local] Hint Resolve mult_update_vonly : vonly.

Lemma assign_vonly t X : vonly (assign t X).
Proof. unfold assign. vonly_tac. Qed.
#[local] Hint Resolve assign_vonly : vonly.

Lemma write_R_vonly st X : vonly (write_R st X).
Proof. unfold write_R. vonly_tac. Qed.
#[local] Hint Resolve write_R_vonly : vonly.

Lemma write_B_vonly st X : vonly (write_B st X).
Proof. unfold write_B. vonly_tac. Qed.
#[local] Hint Resolve write_B_vonly : vonly.

Lemma write_C_vonly st X : vonly (write_C st X).
Proof. unfold write_C. vonly_tac. Qed.
#[local] Hint Resolve write_C_vonly : vonly.

Lemma aux_vonly Z st sym : vonly (attempt_coclustering_aux Z st sym).
Proof.
  unfold attempt_coclustering_aux, upd_R, upd_B, upd_C, upd_S, upd_SB,
    num_R, den_R, num_B, den_B, num_C, den_C, num_S, den_S, num_SB, den_SB.
  vonly_tac.
Qed.
#[local] Hint Resolve aux_vonly : vonly.

Lemma get_adherence_vonly R C B : vonly (get_adherence R C (Some B) Fancy).
Proof. unfold get_adherence. cbv zeta. vonly_tac. Qed.
#[local] Hint Resolve get_adherence_vonly : vonly.

Lemma get_labels_vonly R C B : vonly (get_labels_bicluster R C (Some B) Fancy).
Proof.
  unfold get_labels_bicluster, bicluster_masks, argmax_rows, reshape_col, eq_arr.
  cbv beta iota zeta. vonly_tac.
Qed.
#[local] Hint Resolve get_labels_vonly : vonly.

Section ValueErrors.
Context `{Backend}.

Lemma conv_loop_vonly fuel im Z sym i prev cur st norms hist :
  vonly (conv_loop fuel im Z sym i prev cur st norms hist).
Proof.
  revert i prev cur st norms hist.
  induction fuel as [|fuel IH]; intros; cbn [conv_loop]; unfold recon_norm, esub; vonly_tac.
Qed.
#[local] Hint Resolve conv_loop_vonly : vonly.

Lemma silhouette_score_vonly X v : vonly (silhouette_score X v).
Proof. intros e E. exact (silhouette_score_err X v e E). Qed.
#[local] Hint Resolve silhouette_score_vonly : vonly.

Lemma run_attempt_vonly k l sym im Z g : vonly (run_attempt k l sym im Z g).
Proof.
  unfold run_attempt, attempt_labels, init_factors, random_mat, const_mat,
    attempt_coclustering.
  cbv zeta. vonly_tac.
Qed.

Lemma do_things_loop_vonly k l sym im sh snh Z n g b :
  vonly (do_things_loop k l sym im sh snh Z n g b).
Proof.
  revert g b. induction n as [|n IH]; intros g b; cbn [do_things_loop]; [apply vonly_ok|].
  apply vonly_bind; [apply run_attempt_vonly|]. intros [a g']. apply IH.
Qed.

End ValueErrors.

Lemma matmul_ok A B : nc A = nr B ->
  exists M, matmul A B = Ok M /\ nr M = nr A /\ nc M = nc B.
Proof. intro H. unfold matmul. rewrite H, Nat.eqb_refl. eexists. split; [reflexivity|]. auto. Qed.

Ltac mm_ok :=
  match goal with
  | |- context [matmul ?A ?B] =>
      let M := fresh "M" in let E := fresh "E" in
      let H1 := fresh "Hr" in let H2 := fresh "Hc" in
      destruct (matmul_ok A B) as (M & E & H1 & H2);
      [cbn [T ones diag2 sdiv nr nc] in *; lia | rewrite E; cbn [bind]]
  end.

Lemma bdim_some a b c : bdim a b = Some c -> a = b \/ a = 1 \/ b = 1.
Proof.
  unfold bdim. destruct (Nat.eqb_spec a b); [auto|].
  destruct (Nat.eqb_spec a 1); [auto|]. destruct (Nat.eqb_spec b 1); [auto|discriminate].
Qed.

(** The fancy adherence, with every shape it checks. *)
Lemma fancy_ok_shapes R C B ra ca :
  get_adherence R C (Some B) Fancy = Ok (ra, ca) ->
  nc R = nr B /\ nc B = nr C /\ nr B = nc B /\
  nr ra = nr R /\ nc ra = nc R /\ nr ca = nc C /\ nc ca = nr C.
Proof.
  unfold get_adherence. cbv zeta. intro H.
  destruct (mmc R [B; C]) as [X|e] eqn:EX; cbn [bind] in H; [|discriminate].
  destruct (matmul (T (ones (nr R) (nc R))) R) as [M1|e] eqn:E1; cbn [bind] in H;
    [|discriminate].
  destruct (matmul (T (ones (nr (T C)) (nc (T C)))) (T C)) as [M2|e] eqn:E2;
    cbn [bind] in H; [|discriminate].
  destruct (mmc (sdiv B (msum X)) [diag2 M2; ones (nr (diag2 M2)) (nc (diag2 M2))])
    as [M3|e] eqn:E3; cbn [bind] in H; [|discriminate].
  destruct (matmul R (diag2 M3)) as [U|e] eqn:E4; cbn [bind] in H; [|discriminate].
  destruct (mmc (T (ones (nr (diag2 M1)) (nc (diag2 M1)))) [diag2 M1; sdiv B (msum X)])
    as [M5|e] eqn:E5; cbn [bind] in H; [|discriminate].
  destruct (matmul (T C) (diag2 M5)) as [V|e] eqn:E6; cbn [bind] in H; [|discriminate].
  inversion H; subst; clear H.
  break_mmc. mm_shapes. cbn [T ones diag2 sdiv nr nc] in *. lia.
Qed.


Lemma get_labels_adherence R C B method :
  uses_adherence method = true ->
  get_labels_bicluster R C B method =
  ('(row_adh, col_adh) <- get_adherence R C B method ;;
   row <- argmax_rows row_adh ;;
   col <- argmax_rows col_adh ;;
   bicluster_masks (nr R) (nc R) (nr C) (nc C) row col).
Proof. destruct method; intro Hm; [reflexivity|reflexivity|discriminate|reflexivity]. Qed.





(** ** Convergence loop: what it records *)


Lemma nth_error_last_len {A} (l : list A) n d :
  length l = S n -> nth_error l n = Some (last l d).
Proof.
  revert n. induction l as [|x l IH]; intros n H; [discriminate|].
  destruct l as [|y l].
  - cbn in H. assert (n = 0) by lia. subst. reflexivity.
  - destruct n as [|n]; [cbn in H; lia|].
    change (nth_error (y :: l) n = Some (last (y :: l) d)). apply IH. cbn in *. lia.
Qed.

Section LoopRecords.
Context `{Backend}.

Lemma conv_loop_hist fuel im Z sym i prev cur st norms hist st0 out :
  length hist = S i -> hd_error hist = Some st0 -> last hist st0 = st ->
  i <= Nat.max 1 (Z.to_nat im) ->
  conv_loop fuel im Z sym i prev cur st norms hist = Ok out ->
  length (lo_hist out) = S (lo_iter out) /\ hd_error (lo_hist out) = Some st0 /\
  last (lo_hist out) st0 = lo_store out /\ lo_iter out <= Nat.max 1 (Z.to_nat im).
Proof.
  revert i prev cur st norms hist.
  induction fuel as [|fuel IH]; intros i prev cur st norms hist Hl Hh Hlast Hi Hrun.
  - cbn [conv_loop] in Hrun. inversion Hrun; subst. cbn. auto.
  - cbn [conv_loop] in Hrun.
    destruct (Nat.eqb i 0 || (Z.ltb (Z.of_nat i) im && fle cur prev)) eqn:G.
    + destruct (attempt_coclustering_aux Z st sym) as [st'|e]; [|discriminate].
      cbn [bind] in Hrun.
      destruct (recon_norm Z st') as [nrm|e]; [|discriminate].
      cbn [bind] in Hrun.
      eapply IH; [| | | |exact Hrun].
      * rewrite length_app. cbn. lia.
      * destruct hist as [|x hist]; [discriminate|]. exact Hh.
      * apply last_last.
      * apply orb_true_iff in G as [G|G].
        -- apply Nat.eqb_eq in G. lia.
        -- apply andb_true_iff in G as [G _]. apply Z.ltb_lt in G. lia.
    + inversion Hrun; subst. cbn. auto.
Qed.

End LoopRecords.

Lemma attempt_hist_inv `{Backend} iter_max Z st sym out :
  attempt_coclustering iter_max Z st sym = Ok out ->
  1 <= lo_iter out <= Nat.max 1 (Z.to_nat iter_max) /\
  length (lo_norms out) = lo_iter out /\
  (exists q, nth_error (lo_norms out) (lo_iter out - 1) = Some q /\ lo_norm out = Fin q) /\
  length (lo_hist out) = S (lo_iter out) /\
  hd_error (lo_hist out) = Some st /\
  nth_error (lo_hist out) (lo_iter out) = Some (lo_store out).
Proof.
  intro Hrun.
  pose proof (attempt_iter_pos _ _ _ _ _ Hrun) as Hpos.
  unfold attempt_coclustering in Hrun.
  pose proof Hrun as Hrun'.
  apply conv_loop_inv in Hrun; auto; try lia.
  destruct Hrun as (Ln & _ & Hn & _).
  apply (conv_loop_hist _ _ _ _ _ _ _ _ _ _ st) in Hrun'; auto; try lia.
  destruct Hrun' as (Lh & Hh & Hlast & Hb).
  split; [lia|]. split; [exact Ln|]. split.
  - destruct (lo_iter out) as [|j] eqn:Ei; [lia|].
    exists (nth j (lo_norms out) 0%Q). split.
    + replace (S j - 1) with j by lia. apply nth_error_nth'. lia.
    + rewrite Hn. reflexivity.
  - split; [exact Lh|]. split; [exact Hh|].
    rewrite <- Hlast. apply nth_error_last_len. exact Lh.
Qed.

(** ** Store shapes and the symmetric view *)

Lemma assign_shape t X M : assign t X = Ok M -> nr M = nr t /\ nc M = nc t.
Proof.
  unfold assign.
  destruct (Nat.eqb (nr X) (nr t) && Nat.eqb (nc X) (nc t)) eqn:E1.
  - intro H. inversion H; subst. apply andb_true_iff in E1 as [A B].
    apply Nat.eqb_eq in A, B. auto.
  - destruct ((Nat.eqb (nr X) (nr t) || Nat.eqb (nr X) 1)
          && (Nat.eqb (nc X) (nc t) || Nat.eqb (nc X) 1));
      intro H; inversion H; subst; cbn; auto.
Qed.

Lemma write_R_shape st X st' :
  write_R st X = Ok st' -> store_shape st' = store_shape st /\ is_view st' = is_view st.
Proof.
  unfold write_R. destruct (assign (sR st) X) as [R'|e] eqn:E; cbn [bind]; [|discriminate].
  intro H. inversion H; subst; clear H. apply assign_shape in E as [E1 E2].
  unfold store_shape, getC, is_view. cbn [sR sB sC].
  destruct (sC st); cbn [T nr nc]; rewrite ?E1, ?E2; auto.
Qed.

Lemma write_B_shape st X st' :
  write_B st X = Ok st' -> store_shape st' = store_shape st /\ is_view st' = is_view st.
Proof.
  unfold write_B. destruct (assign (sB st) X) as [B'|e] eqn:E; cbn [bind]; [|discriminate].
  intro H. inversion H; subst; clear H. apply assign_shape in E as [E1 E2].
  unfold store_shape, getC, is_view. cbn [sR sB sC].
  destruct (sC st); rewrite ?E1, ?E2; auto.
Qed.

Lemma write_C_shape st X st' :
  write_C st X = Ok st' -> store_shape st' = store_shape st /\ is_view st' = is_view st.
Proof.
  unfold write_C, store_shape, getC, is_view. destruct (sC st) as [C|].
  - destruct (assign C X) as [C'|e] eqn:E; cbn [bind]; [|discriminate].
    intro H. inversion H; subst; clear H. apply assign_shape in E as [E1 E2].
    cbn [sR sB sC]. rewrite E1, E2. auto.
  - destruct (assign (T (sR st)) X) as [Rt|e] eqn:E; cbn [bind]; [|discriminate].
    intro H. inversion H; subst; clear H. apply assign_shape in E as [E1 E2].
    cbn [sR sB sC T nr nc] in *. rewrite E1, E2. auto.
Qed.

Ltac peel_all :=
  repeat match goal with
  | H : bind ?m _ = Ok _ |- _ =>
      let E := fresh "E" in destruct m eqn:E; cbn [bind] in H; [|discriminate]
  end.


Lemma shape_kept_bind f g : shape_kept f -> shape_kept g ->
  shape_kept (fun st => st1 <- f st ;; g st1).
Proof.
  intros Hf Hg st st' E. peel_all.
  destruct (Hf _ _ E0) as [A1 B1]. destruct (Hg _ _ E) as [A2 B2].
  rewrite A2, B2. auto.
Qed.

Lemma upd_R_shape Z : shape_kept (upd_R Z).
Proof. intros st st' E. unfold upd_R in E. peel_all. eapply write_R_shape; eauto. Qed.
Lemma upd_B_shape Z : shape_kept (upd_B Z).
Proof. intros st st' E. unfold upd_B in E. peel_all. eapply write_B_shape; eauto. Qed.
Lemma upd_C_shape Z : shape_kept (upd_C Z).
Proof. intros st st' E. unfold upd_C in E. peel_all. eapply write_C_shape; eauto. Qed.
Lemma upd_S_shape Z : shape_kept (upd_S Z).
Proof. intros st st' E. unfold upd_S in E. peel_all. eapply write_R_shape; eauto. Qed.
Lemma upd_SB_shape Z : shape_kept (upd_SB Z).
Proof. intros st st' E. unfold upd_SB in E. peel_all. eapply write_B_shape; eauto. Qed.

Lemma aux_shape Z st sym st' :
  attempt_coclustering_aux Z st sym = Ok st' ->
  store_shape st' = store_shape st /\ is_view st' = is_view st.
Proof.
  unfold attempt_coclustering_aux. destruct sym; cbn [negb]; intro H.
  - exact (shape_kept_bind _ _ (upd_S_shape Z) (upd_SB_shape Z) _ _ H).
  - exact (shape_kept_bind _ _ (upd_R_shape Z)
             (shape_kept_bind _ _ (upd_B_shape Z) (upd_C_shape Z)) _ _ H).
Qed.

Section ShapeLoop.
Context `{Backend}.

Lemma conv_loop_shape fuel im Z sym i prev cur st norms hist out :
  conv_loop fuel im Z sym i prev cur st norms hist = Ok out ->
  store_shape (lo_store out) = store_shape st /\ is_view (lo_store out) = is_view st.
Proof.
  revert i prev cur st norms hist.
  induction fuel as [|fuel IH]; intros i prev cur st norms hist Hrun.
  - cbn [conv_loop] in Hrun. inversion Hrun; subst. auto.
  - cbn [conv_loop] in Hrun.
    destruct (Nat.eqb i 0 || (Z.ltb (Z.of_nat i) im && fle cur prev)).
    + destruct (attempt_coclustering_aux Z st sym) as [st'|e] eqn:Ea; [|discriminate].
      cbn [bind] in Hrun.
      destruct (recon_norm Z st') as [nrm|e]; [|discriminate].
      cbn [bind] in Hrun.
      destruct (IH _ _ _ _ _ _ Hrun) as [A B].
      destruct (aux_shape _ _ _ _ Ea) as [A' B']. rewrite A, B, A', B'. auto.
    + inversion Hrun; subst. auto.
Qed.

Lemma attempt_shape im Z st sym out :
  attempt_coclustering im Z st sym = Ok out ->
  store_shape (lo_store out) = store_shape st /\ is_view (lo_store out) = is_view st.
Proof. unfold attempt_coclustering. apply conv_loop_shape. Qed.

Lemma init_factors_inv k l sym Z g st g' :
  init_factors k l sym Z g = Ok (st, g') ->
  (0 <= k)%Z /\ (0 <= l)%Z /\ nr (sB st) = Z.to_nat k /\ nc (sB st) = Z.to_nat l /\
  is_view st = sym.
Proof.
  unfold init_factors, random_mat, const_mat. cbv zeta.
  destruct sym; cbn [negb]; intro E;
  destruct (Z.ltb (Z.of_nat (nr Z)) 0 || Z.ltb k 0) eqn:E1; cbn [bind] in E;
    try discriminate;
  destruct (rng_random g (Z.to_nat (Z.of_nat (nr Z))) (Z.to_nat k)) as [R g1];
  destruct (Z.ltb k 0 || Z.ltb l 0) eqn:E2; cbn [bind] in E; try discriminate;
  apply orb_false_iff in E2 as [E2 E3]; apply Z.ltb_ge in E2, E3.
  - inversion E; subst. cbn. repeat split; lia.
  - destruct (Z.ltb l 0 || Z.ltb (Z.of_nat (nc Z)) 0); cbn [bind] in E; [discriminate|].
    destruct (rng_random g1 _ _). inversion E; subst. cbn. repeat split; lia.
Qed.

Lemma run_attempt_view k l sym im Z g a g' :
  run_attempt k l sym im Z g = Ok (a, g') ->
  exists st, ar_results a = factors st /\ is_view st = sym.
Proof.
  unfold run_attempt, attempt_labels. intro E.
  destruct (init_factors k l sym Z g) as [[st g1]|e] eqn:Ei; cbn [bind] in E; [|discriminate].
  destruct (attempt_coclustering im Z st sym) as [out|e] eqn:Eo; cbn [bind] in E;
    [|discriminate].
  destruct (factors (lo_store out)) as [[R B] C] eqn:Ef.
  destruct (get_labels_bicluster R C (Some B) Fancy) as [[[bic row] col]|e];
    cbn [bind] in E; [|discriminate].
  destruct (silhouette_score Z row) as [sr|e]; cbn [bind] in E; [|discriminate].
  destruct (silhouette_score (T Z) col) as [sc|e]; cbn [bind] in E; [|discriminate].
  inversion E; subst; clear E. cbn [ar_results].
  exists (lo_store out). split; [reflexivity|].
  destruct (attempt_shape _ _ _ _ _ Eo) as [_ V]. rewrite V.
  apply init_factors_inv in Ei. tauto.
Qed.

Lemma run_attempts_forall (P : attempt_result -> Prop) k l sym im Z n g atts :
  (forall g a g', run_attempt k l sym im Z g = Ok (a, g') -> P a) ->
  run_attempts k l sym im Z n g = Ok atts -> Forall P atts.
Proof.
  intro HP. revert g atts. induction n as [|n IH]; intros g atts E; cbn [run_attempts] in E.
  - inversion E. constructor.
  - destruct (run_attempt k l sym im Z g) as [[a g']|e] eqn:Ea; cbn [bind] in E;
      [|discriminate].
    destruct (run_attempts k l sym im Z n g') as [rest|e] eqn:Er; cbn [bind] in E;
      [|discriminate].
    inversion E; subst. constructor; [eapply HP; exact Ea|]. eapply IH. exact Er.
Qed.

End ShapeLoop.

Lemma NBVD_S `{Backend} cfg e md :
  NBVD_coclustering cfg e = Ok md ->
  m_S md = if symmetric cfg then Some (m_R md) else None.
Proof.
  unfold NBVD_coclustering. cbv zeta. intro E. peel_rng E.
  destruct (symmetric cfg && negb (Nat.eqb (nr (data cfg)) (nc (data cfg))));
    cbn [bind] in E; [discriminate|].
  destruct (do_things cfg (data cfg) (rng_of_seed (random_state cfg) e)) as [b|e'];
    cbn [bind] in E; [|discriminate].
  destruct (best_results b) as [[[R B] C]|]; cbn [bind] in E; [|discriminate].
  destruct (get_basis_vectors R B C); cbn [bind] in E; [|discriminate].
  destruct (get_labels_bicluster R C (Some B) Fancy) as [[[bic row] col]|e'];
    cbn [bind] in E; [|discriminate].
  destruct (get_cluster_assoc R B C); cbn [bind] in E; [|discriminate].
  inversion E; subst; clear E. reflexivity.
Qed.




Lemma run_attempt_good `{Backend} k l sym im Z g a g' :
  run_attempt k l sym im Z g = Ok (a, g') -> attempt_good im a.
Proof.
  unfold run_attempt, attempt_labels. intro E.
  destruct (init_factors k l sym Z g) as [[st g1]|e]; cbn [bind] in E; [|discriminate].
  destruct (attempt_coclustering im Z st sym) as [out|e] eqn:Eo; cbn [bind] in E;
    [|discriminate].
  destruct (factors (lo_store out)) as [[R B] C] eqn:Ef.
  destruct (get_labels_bicluster R C (Some B) Fancy) as [[[bic row] col]|e];
    cbn [bind] in E; [|discriminate].
  destruct (silhouette_score Z row) as [sr|e]; cbn [bind] in E; [|discriminate].
  destruct (silhouette_score (T Z) col) as [sc|e]; cbn [bind] in E; [|discriminate].
  inversion E; subst; clear E.
  destruct (attempt_hist_inv _ _ _ _ _ Eo) as (Hb & Ln & Hn & Lh & _ & Hl).
  unfold attempt_good. cbn [ar_iter ar_norms ar_norm ar_hist ar_results].
  repeat split; try lia; auto.
  - rewrite length_map. exact Lh.
  - rewrite nth_error_map, Hl. reflexivity.
Qed.

Lemma select_inv sh snh im b a :
  attempt_good im a -> best_inv sh snh im b -> best_inv sh snh im (select sh snh b a).
Proof.
  intros Ha Hb. unfold select. destruct (mt_gt (ar_sil a) (best_sil b)); [|exact Hb].
  right. exists a. split; [exact Ha|]. cbn.
  split; [reflexivity|]. split; [reflexivity|]. split; [reflexivity|]. split.
  - destruct sh; [reflexivity|].
    destruct Hb as [(_ & Hh & _) | (a0 & _ & _ & _ & _ & Hh & _)]; exact Hh.
  - destruct snh; [reflexivity|].
    destruct Hb as [(_ & _ & Hh) | (a0 & _ & _ & _ & _ & _ & Hh)]; exact Hh.
Qed.

Lemma fold_select_inv sh snh im atts b :
  Forall (attempt_good im) atts -> best_inv sh snh im b ->
  best_inv sh snh im (fold_left (select sh snh) atts b).
Proof.
  revert b. induction atts as [|a atts IH]; intros b Hall Hb; [exact Hb|].
  inversion Hall; subst. cbn [fold_left]. apply IH; auto. apply select_inv; auto.
Qed.

Lemma NBVD_ok_best `{Backend} cfg e md :
  NBVD_coclustering cfg e = Ok md ->
  exists b,
    do_things cfg (data cfg) (rng_of_seed (random_state cfg) e) = Ok b /\
    best_results b = Some (m_R md, m_B md, m_C md) /\
    m_best_norm md = best_norm b /\ m_best_iter md = best_iter b /\
    m_best_history md = best_history b /\ m_norm_history md = norm_history b.
Proof.
  unfold NBVD_coclustering. cbv zeta. intro E. peel_rng E.
  destruct (symmetric cfg && negb (Nat.eqb (nr (data cfg)) (nc (data cfg))));
    cbn [bind] in E; [discriminate|].
  destruct (do_things cfg (data cfg) (rng_of_seed (random_state cfg) e)) as [b|e'];
    cbn [bind] in E; [|discriminate].
  destruct (best_results b) as [[[R B] C]|] eqn:Er; cbn [bind] in E; [|discriminate].
  destruct (get_basis_vectors R B C); cbn [bind] in E; [|discriminate].
  destruct (get_labels_bicluster R C (Some B) Fancy) as [[[bic row] col]|e'];
    cbn [bind] in E; [|discriminate].
  destruct (get_cluster_assoc R B C); cbn [bind] in E; [|discriminate].
  inversion E; subst; clear E. exists b. cbn. repeat split; auto.
Qed.

Lemma NBVD_best_inv `{Backend} cfg e md :
  NBVD_coclustering cfg e = Ok md ->
  exists a, attempt_good (iter_max cfg) a /\ ar_results a = (m_R md, m_B md, m_C md) /\
    m_best_iter md = ar_iter a /\ m_best_norm md = ar_norm a /\
    m_best_history md = (if save_history cfg then Some (ar_hist a) else None) /\
    m_norm_history md = (if save_norm_history cfg then Some (ar_norms a) else None).
Proof.
  intro E. destruct (NBVD_ok_best _ _ _ E) as (b & Eb & Hr & Hn & Hi & Hh & Hnh).
  unfold do_things in Eb. rewrite do_things_loop_fold in Eb.
  destruct (run_attempts _ _ _ _ _ _ _) as [atts|e'] eqn:Ea; cbn [res_map] in Eb;
    [|discriminate].
  inversion Eb as [Eb']. clear Eb.
  assert (Hall := run_attempts_forall (attempt_good (iter_max cfg)) _ _ _ _ _ _ _ _
                    (run_attempt_good _ _ _ _ _) Ea).
  assert (Hinv := fold_select_inv (save_history cfg) (save_norm_history cfg) (iter_max cfg)
                    atts best_init Hall (or_introl (conj eq_refl (conj eq_refl eq_refl)))).
  rewrite Eb' in Hinv.
  destruct Hinv as [(Hn' & _ & _) | (a & Ha & Hr' & Hi' & Hn' & Hh' & Hnh')].
  - rewrite Hr in Hn'. discriminate.
  - exists a. rewrite Hr in Hr'. injection Hr' as Hr''.
    split; [exact Ha|]. repeat split; congruence.
Qed.




Lemma labels_fancy_needs R C B x :
  get_labels_bicluster R C (Some B) Fancy = Ok x -> 0 < nr B /\ nr B = nc B.
Proof.
  unfold get_labels_bicluster, bicluster_masks. cbv beta iota zeta. intro H.
  destruct (get_adherence R C (Some B) Fancy) as [[ra ca]|e] eqn:Ea; cbn [bind] in H;
    [|discriminate].
  destruct (argmax_rows ra) as [row|e] eqn:Er; cbn [bind] in H; [|discriminate].
  apply argmax_rows_spec in Er as [Hk _].
  apply fancy_ok_shapes in Ea as (H1 & _ & H3 & _ & H5 & _). lia.
Qed.

Lemma run_attempt_needs_clusters `{Backend} k l sym im Z g a g' :
  run_attempt k l sym im Z g = Ok (a, g') -> (0 < k)%Z /\ (0 < l)%Z.
Proof.
  unfold run_attempt, attempt_labels. intro E.
  destruct (init_factors k l sym Z g) as [[st g1]|e] eqn:Ei; cbn [bind] in E; [|discriminate].
  destruct (attempt_coclustering im Z st sym) as [out|e] eqn:Eo; cbn [bind] in E;
    [|discriminate].
  destruct (factors (lo_store out)) as [[R B] C] eqn:Ef.
  destruct (get_labels_bicluster R C (Some B) Fancy) as [x|e] eqn:El;
    cbn [bind] in E; [|discriminate].
  apply labels_fancy_needs in El as [L1 L2].
  apply init_factors_inv in Ei as (Hk & Hl & Hr & Hc & _).
  apply attempt_shape in Eo as [Hs _].
  unfold factors in Ef. injection Ef as _ EB _. subst B.
  unfold store_shape in Hs. injection Hs as _ _ Hs1 Hs2 _ _. lia.
Qed.



Lemma cand_from_inbounds labels c n ds : forall count,
  (Z.of_nat count < n)%Z -> (forall i, In i (map fst ds) -> i < length labels) ->
  candidate_selection_from labels c n count ds =
  Some (firstn (Z.to_nat n - count)
          (filter (fun i => Nat.eqb (nth i labels 0) c) (map fst ds))).
Proof.
  induction ds as [|[i q] ds IH]; intros count Hc Hb; cbn [candidate_selection_from].
  - cbn. rewrite firstn_nil. reflexivity.
  - assert (Hi : i < length labels) by (apply Hb; left; reflexivity).
    destruct (nth_error labels i) as [li|] eqn:Eli;
      [|apply nth_error_None in Eli; lia].
    cbn [map fst filter]. rewrite (nth_error_nth _ _ 0 Eli).
    destruct (Nat.eqb li c) eqn:Ec.
    + destruct (Z.leb n (Z.of_nat (S count))) eqn:En.
      * apply Z.leb_le in En. replace (Z.to_nat n - count) with 1 by lia. reflexivity.
      * apply Z.leb_gt in En. rewrite IH by (auto; intros; apply Hb; right; auto).
        replace (Z.to_nat n - count) with (S (Z.to_nat n - S count)) by lia.
        reflexivity.
    + destruct (Z.leb n (Z.of_nat count)) eqn:En; [apply Z.leb_le in En; lia|].
      rewrite IH by (auto; intros; apply Hb; right; auto). reflexivity.
Qed.

Lemma cand_from_sub labels c n ds : forall count l,
  candidate_selection_from labels c n count ds = Some l ->
  (forall i, In i l -> In i (map fst ds) /\ nth_error labels i = Some c) /\
  (NoDup (map fst ds) -> NoDup l) /\
  count + length l <= Nat.max (S count) (Z.to_nat n).
Proof.
  induction ds as [|[i q] ds IH]; intros count l E; cbn [candidate_selection_from] in E.
  - inversion E; subst. cbn [length]. split; [intros ? []|]. split; [intros _; apply NoDup_nil|lia].
  - destruct (nth_error labels i) as [li|] eqn:Eli; [|discriminate].
    destruct (Nat.eqb li c) eqn:Ec.
    + apply Nat.eqb_eq in Ec. subst li.
      destruct (Z.leb n (Z.of_nat (S count))) eqn:En.
      * inversion E; subst. cbn [length map fst]. split.
        -- intros j [<-|[]]. cbn [map fst In]. auto.
        -- split; [intros _; repeat constructor; intros []|lia].
      * apply Z.leb_gt in En.
        destruct (candidate_selection_from labels c n (S count) ds) as [l'|] eqn:E';
          [|discriminate].
        cbn in E. inversion E; subst.
        destruct (IH _ _ E') as (H1 & H2 & H3). cbn [map fst]. split; [|split].
        -- intros j Hj. cbn [In] in Hj. destruct Hj as [Hj|Hj].
           ++ subst j. split; [left; reflexivity|exact Eli].
           ++ destruct (H1 j Hj). split; [right|]; auto.
        -- intro Hn. inversion Hn; subst. constructor; [|auto].
           intro Hin. apply (H1 i) in Hin as [Hin _]. contradiction.
        -- cbn [length]. lia.
    + destruct (Z.leb n (Z.of_nat count)) eqn:En.
      * inversion E; subst. cbn [length]. split; [intros ? []|]. split; [intros _; apply NoDup_nil|lia].
      * apply Z.leb_gt in En.
        destruct (candidate_selection_from labels c n count ds) as [l'|] eqn:E';
          [|discriminate].
        cbn in E. inversion E; subst.
        destruct (IH _ _ E') as (H1 & H2 & H3). cbn [map fst]. split; [|split].
        -- intros j Hj. destruct (H1 j Hj). split; [right|]; auto.
        -- intro Hn. inversion Hn; subst. auto.
        -- lia.
Qed.

Lemma insert_by_key_perm r x l : Permutation (insert_by_key r x l) (x :: l).
Proof.
  induction l as [|y l IH]; cbn; [reflexivity|].
  destruct (if r then _ else _); [reflexivity|].
  rewrite IH. apply perm_swap.
Qed.

Lemma sorted_by_key_perm r l : Permutation (sorted_by_key r l) l.
Proof.
  unfold sorted_by_key. rewrite <- (app_nil_r l) at 2.
  generalize (@nil (nat * Q)). induction l as [|x l IH]; intro acc; [reflexivity|].
  cbn [fold_left]. rewrite IH, insert_by_key_perm.
  symmetry. apply Permutation_middle.
Qed.

Lemma map_fst_combine_seq s r (col : list Q) :
  map fst (combine (seq s r) col) = seq s (Nat.min r (length col)).
Proof.
  revert s col. induction r as [|r IH]; intros s [|x col]; cbn; auto.
  rewrite IH. reflexivity.
Qed.

Lemma column_length A c col : column A c = Some col -> length col = nr A.
Proof.
  unfold column. destruct (Nat.ltb c (nc A)); intro E; inversion E.
  rewrite length_map, length_seq. reflexivity.
Qed.

Lemma sorted_indices r rows col :
  Permutation (map fst (sorted_by_key r (combine (seq 0 rows) col)))
    (seq 0 (Nat.min rows (length col))).
Proof.
  rewrite <- map_fst_combine_seq. apply Permutation_map. apply sorted_by_key_perm.
Qed.

Lemma representatives_loop_sub rows AD labels n r cs d :
  representatives_loop rows AD labels n r cs = Some d ->
  (forall c l, In (c, l) d ->
     In c cs /\ l <> [] /\ NoDup l /\ length l <= Nat.max 1 (Z.to_nat n) /\
     forall i, In i l -> i < rows /\ i < nr AD /\ nth_error labels i = Some c) /\
  (NoDup cs -> NoDup (map fst d)).
Proof.
  revert d. induction cs as [|c cs IH]; intros d E; cbn [representatives_loop] in E.
  - inversion E; subst. cbn. split; [tauto|constructor].
  - destruct (column AD c) as [col|] eqn:Ecol; [|discriminate].
    unfold __candidate_selection in E.
    destruct (candidate_selection_from labels c n 0 _) as [l|] eqn:Ecand; [|discriminate].
    destruct (representatives_loop rows AD labels n r cs) as [rest|] eqn:Er; [|discriminate].
    inversion E; subst; clear E.
    destruct (IH _ eq_refl) as [IH1 IH2].
    pose proof (sorted_indices r rows col) as Hp.
    rewrite (column_length _ _ _ Ecol) in Hp.
    destruct (cand_from_sub _ _ _ _ _ _ Ecand) as (C1 & C2 & C3).
    assert (Hl : forall c0 l0, In (c0, l0) rest -> In c0 (c :: cs) /\ l0 <> [] /\ NoDup l0 /\
              length l0 <= Nat.max 1 (Z.to_nat n) /\
              forall i, In i l0 -> i < rows /\ i < nr AD /\ nth_error labels i = Some c0).
    { intros c0 l0 H0. destruct (IH1 _ _ H0) as [A B]. split; [right; exact A|exact B]. }
    destruct l as [|x l'].
    + split; [exact Hl|]. intro Hn. inversion Hn; subst. auto.
    + split.
      * intros c0 l0 [Heq|H0]; [|apply Hl; exact H0].
        inversion Heq; subst. split; [left; reflexivity|]. split; [discriminate|].
        split.
        -- apply C2. eapply Permutation_NoDup; [symmetry; exact Hp|apply seq_NoDup].
        -- split; [cbn [length Nat.add] in C3 |- *; lia|].
           intros i Hi. destruct (C1 i Hi) as [Hin Hlab].
           eapply Permutation_in in Hin; [|exact Hp]. apply in_seq in Hin.
           split; [lia|split; [lia|exact Hlab]].
      * intro Hn. inversion Hn; subst. cbn [map fst]. constructor; [|auto].
        intro Hin. apply in_map_iff in Hin as [[c1 l1] [Ec1 Hin]]. cbn in Ec1. subst c1.
        apply IH1 in Hin as [Hin _]. contradiction.
Qed.



Lemma representatives_loop_complete rows AD labels n r cs :
  (forall c, In c cs -> c < nc AD) -> Nat.min rows (nr AD) <= length labels ->
  (1 <= n)%Z ->
  exists d, representatives_loop rows AD labels n r cs = Some d /\
    forall c, In c cs ->
      ((exists l, In (c, l) d) <->
       exists i, i < rows /\ i < nr AD /\ nth_error labels i = Some c).
Proof.
  intros Hcs Hlab Hn. induction cs as [|c cs IH].
  - exists []. split; [reflexivity|]. intros c [].
  - destruct IH as (rest & Er & Hrest); [intros; apply Hcs; right; auto|].
    cbn [representatives_loop]. unfold column.
    replace (Nat.ltb c (nc AD)) with true
      by (symmetry; apply Nat.ltb_lt, Hcs; left; reflexivity).
    set (col := map (fun i => get AD i c) (seq 0 (nr AD))).
    set (ds := sorted_by_key r (combine (seq 0 rows) col)).
    assert (Hp : Permutation (map fst ds) (seq 0 (Nat.min rows (nr AD)))).
    { pose proof (sorted_indices r rows col) as Hp.
      unfold col in Hp at 2. rewrite length_map, length_seq in Hp. exact Hp. }
    assert (Hin : forall i, In i (map fst ds) ->
               i < rows /\ i < nr AD /\ i < length labels).
    { intros i Hi. eapply Permutation_in in Hi; [|exact Hp].
      apply in_seq in Hi. lia. }
    unfold __candidate_selection.
    rewrite cand_from_inbounds by (cbn; lia || (intros i Hi; apply Hin; exact Hi)).
    rewrite Er. rewrite Nat.sub_0_r.
    set (sel := firstn (Z.to_nat n) _).
    assert (Hsel : sel <> [] <->
                   exists i, i < rows /\ i < nr AD /\ nth_error labels i = Some c).
    { unfold sel. split.
      - intro Hne. destruct (filter _ (map fst ds)) as [|i l] eqn:Ef.
        + rewrite firstn_nil in Hne. contradiction.
        + assert (Hi : In i (filter (fun i => Nat.eqb (nth i labels 0) c) (map fst ds)))
            by (rewrite Ef; left; reflexivity).
          apply filter_In in Hi as [Hi Hc]. apply Nat.eqb_eq in Hc.
          destruct (Hin i Hi) as (A & B & C). exists i. split; [exact A|]. split; [exact B|].
          rewrite <- Hc. apply nth_error_nth'. exact C.
      - intros (i & A & B & C) Hnil.
        assert (Hi : In i (filter (fun i => Nat.eqb (nth i labels 0) c) (map fst ds))).
        { apply filter_In. split.
          - eapply Permutation_in; [symmetry; exact Hp|]. apply in_seq. lia.
          - apply Nat.eqb_eq. apply (nth_error_nth _ _ 0 C). }
        destruct (filter _ (map fst ds)) as [|j l]; [contradiction|].
        destruct (Z.to_nat n) eqn:Ek; [lia|]. discriminate. }
    assert (Hkeys : forall c0 l0, In (c0, l0) rest -> In c0 cs).
    { intros c0 l0 H0. destruct (representatives_loop_sub _ _ _ _ _ _ _ Er) as [K _].
      apply (K _ _ H0). }
    eexists. split; [reflexivity|].
    intros c0 Hc0.
    destruct (Nat.eq_dec c0 c) as [->|Hne].
    + rewrite <- Hsel. destruct sel as [|x l].
      * split; [|intro H; contradiction H; reflexivity].
        intros [l Hl]. apply Hsel. apply Hrest; [eapply Hkeys; exact Hl|]. exists l. exact Hl.
      * split; [intros _; discriminate|]. intros _. exists (x :: l). left. reflexivity.
    + destruct Hc0 as [Hc0|Hc0]; [congruence|].
      rewrite <- Hrest by exact Hc0.
      destruct sel as [|x l]; [reflexivity|].
      split.
      * intros [l0 [Hl0|Hl0]]; [inversion Hl0; congruence|]. exists l0. exact Hl0.
      * intros [l0 Hl0]. exists l0. right. exact Hl0.
Qed.



Lemma fold_max_spec r x :
  In (fold_left Z.max r x) (x :: r) /\
  forall y, In y (x :: r) -> (y <= fold_left Z.max r x)%Z.
Proof.
  revert x. induction r as [|z r IH]; intro x; cbn [fold_left].
  - split; [left; reflexivity|]. intros y [<-|[]]. lia.
  - destruct (IH (Z.max x z)) as [H1 H2]. split.
    + destruct H1 as [H1|H1]; [|right; right; exact H1].
      assert (Hm : Z.max x z = x \/ Z.max x z = z) by lia.
      destruct Hm as [Hm|Hm]; rewrite Hm in H1 at 1; [left|right; left]; exact H1.
    + intros y [->|[->|Hy]].
      * specialize (H2 (Z.max y z) (or_introl eq_refl)). lia.
      * specialize (H2 (Z.max x y) (or_introl eq_refl)). lia.
      * apply H2. right. exact Hy.
Qed.

Lemma amax_spec a m : amax a = Ok m -> In m a /\ forall y, In y a -> (y <= m)%Z.
Proof.
  destruct a as [|x r]; intro E; [discriminate|]. inversion E; subst.
  apply fold_max_spec.
Qed.

Lemma place_eq_length a v vals j : length (place_eq a v vals j) = length a.
Proof.
  revert j. induction a as [|x a IH]; intro j; cbn; [reflexivity|].
  destruct (Z.eqb x v); cbn; rewrite IH; reflexivity.
Qed.

Lemma place_eq_keep a v vals j t :
  nth t a 0%Z <> v -> nth t (place_eq a v vals j) 0%Z = nth t a 0%Z.
Proof.
  revert j t. induction a as [|x a IH]; intros j t Ht; cbn; [reflexivity|].
  destruct (Z.eqb x v) eqn:E; destruct t as [|t]; cbn in *.
  - apply Z.eqb_eq in E. contradiction.
  - apply IH. exact Ht.
  - reflexivity.
  - apply IH. exact Ht.
Qed.

Lemma place_eq_in a v vals j x :
  In x (place_eq a v vals j) -> (In x a /\ x <> v) \/ exists k, x = vals k.
Proof.
  revert j. induction a as [|y a IH]; intros j Hx; cbn in Hx; [contradiction|].
  destruct (Z.eqb y v) eqn:E; destruct Hx as [<-|Hx].
  - right. eauto.
  - destruct (IH _ Hx) as [[A B]|B]; [left; split; [right|]|right]; auto.
  - left. split; [left; reflexivity|]. apply Z.eqb_neq. exact E.
  - destruct (IH _ Hx) as [[A B]|B]; [left; split; [right|]|right]; auto.
Qed.

Lemma place_eq_same a v : place_eq a v (fun _ => v) 0 = a.
Proof.
  generalize 0. induction a as [|x a IH]; intro j; cbn; [reflexivity|].
  destruct (Z.eqb x v) eqn:E; rewrite IH; [apply Z.eqb_eq in E; subst|]; reflexivity.
Qed.

Lemma count_occ_pos_in (l : list Z) v : 0 < count_occ Z.eq_dec l v -> In v l.
Proof. intro H. apply (count_occ_In Z.eq_dec). lia. Qed.

Lemma bincount_ok x counts :
  bincount x = Ok counts ->
  (forall v, In v x -> (0 <= v)%Z) /\
  ((x = [] /\ counts = []) \/ exists m, amax x = Ok m /\
    counts = map (fun b => count_occ Z.eq_dec x (Z.of_nat b)) (seq 0 (S (Z.to_nat m)))).
Proof.
  unfold bincount. destruct (existsb (fun v => Z.ltb v 0) x) eqn:En; [discriminate|].
  assert (Hnn : forall v, In v x -> (0 <= v)%Z).
  { intros v Hv. destruct (Z.ltb v 0) eqn:Ev; [|apply Z.ltb_ge; exact Ev].
    exfalso. assert (existsb (fun v => Z.ltb v 0) x = true)
      by (apply existsb_exists; exists v; auto). congruence. }
  destruct x as [|y r]; intro E; [inversion E; subst|].
  - split; [exact Hnn|]. left. auto.
  - split; [exact Hnn|]. destruct (amax (y :: r)) as [m|e] eqn:Em; cbn [bind] in E;
      [|discriminate]. inversion E; subst. right. eauto.
Qed.

Lemma inject_Z_le_iff a b : (inject_Z a <= inject_Z b)%Q <-> (a <= b)%Z.
Proof. unfold Qle. cbn. rewrite !Z.mul_1_r. reflexivity. Qed.

Lemma inject_Z_lt_iff a b : (inject_Z a < inject_Z b)%Q <-> (a < b)%Z.
Proof. unfold Qlt. cbn. rewrite !Z.mul_1_r. reflexivity. Qed.

Lemma argmax_list_spec a i :
  argmax_list a = Ok i ->
  i < length a /\ (forall t, t < length a -> nth t a 0 <= nth i a 0) /\
  (forall t, t < i -> nth t a 0 < nth i a 0).
Proof.
  intro E. destruct a as [|x r]; [discriminate|].
  assert (Ei : argmax_from (fun t => inject_Z (Z.of_nat (nth t (x :: r) 0))) 0 1
                (length (x :: r) - 1) = i) by (inversion E; reflexivity).
  clear E.
  remember (x :: r) as a eqn:Ea.
  assert (Hl : 1 <= length a) by (subst a; cbn; lia).
  destruct (argmax_from_spec (fun t => inject_Z (Z.of_nat (nth t a 0))) (length a - 1) 0 1)
    as (H1 & H2 & H3).
  - lia.
  - intros t Ht. replace t with 0 by lia. apply Qle_refl.
  - intros t Ht. lia.
  - rewrite Ei in H1, H2, H3. split; [lia|]. split.
    + intros t Ht. specialize (H2 t ltac:(lia)). cbv beta in H2. rewrite inject_Z_le_iff in H2. lia.
    + intros t Ht. specialize (H3 t Ht). cbv beta in H3. rewrite inject_Z_lt_iff in H3. lia.
Qed.

Lemma count_occ_out (l : list Z) v : ~ In v l -> count_occ Z.eq_dec l v = 0.
Proof. intro H. apply count_occ_not_In. exact H. Qed.

Section FixLabels.
Context `{Generator}.

Lemma fix_labels_ok labels RNG fresh p new g' :
  kmeans_fix_labels labels RNG fresh p = Ok (new, g') ->
  exists i m (u : nat -> Q) (ints : nat -> Z),
    (forall v, In v labels -> (0 <= v)%Z) /\
    amax labels = Ok m /\ argmax_list
      (map (fun b => count_occ Z.eq_dec labels (Z.of_nat b)) (seq 0 (S (Z.to_nat m)))) = Ok i /\
    (forall j, fst (gen_random (match RNG with Some g => g | None => fresh end)
                      (length (filter (fun v => Z.eqb v (Z.of_nat i)) labels))) j = u j) /\
    new = place_eq labels (Z.of_nat i)
            (fun j => Z.modulo (nth j (filter (fun v => Z.eqb v (Z.of_nat i)) labels) 0%Z
                                + (if Qltb (u j) p then 1 else 0) * ints j) (1 + m)) 0.
Proof.
  unfold kmeans_fix_labels. cbv zeta. intro E.
  destruct (bincount labels) as [counts|e] eqn:Eb; cbn [bind] in E; [|discriminate].
  destruct (argmax_list counts) as [i|e] eqn:Ea; cbn [bind] in E; [|discriminate].
  destruct (amax labels) as [m|e] eqn:Em; cbn [bind] in E; [|discriminate].
  destruct (gen_random _ _) as [u g1] eqn:Eu.
  destruct (gen_integers g1 1 (1 + m) _) as [[ints g2]|e]; cbn [bind] in E; [|discriminate].
  inversion E; subst new g'. clear E.
  apply bincount_ok in Eb as [Hnn [[-> ->]|(m' & Em' & Ec)]]; [discriminate|].
  rewrite Em in Em'. inversion Em'; subst m' counts.
  exists i, m, u, ints. repeat split; auto. intro j. rewrite Eu. reflexivity.
Qed.

End FixLabels.



Lemma place_eq_fixed a v vals j :
  (forall k, k < length (filter (fun x => Z.eqb x v) a) -> vals (j + k) = v) ->
  place_eq a v vals j = a.
Proof.
  revert j. induction a as [|x a IH]; intros j Hv; cbn; [reflexivity|].
  destruct (Z.eqb x v) eqn:E.
  - apply Z.eqb_eq in E. subst x. cbn [filter] in Hv. rewrite Z.eqb_refl in Hv.
    rewrite IH.
    + f_equal. rewrite <- (Nat.add_0_r j). apply Hv. cbn. lia.
    + intros k Hk. replace (S j + k) with (j + S k) by lia. apply Hv. cbn. lia.
  - cbn [filter] in Hv. rewrite E in Hv. rewrite IH by exact Hv. reflexivity.
Qed.




Lemma transform_loop_spec pp X seen :
  exists ys, transform_loop pp X seen = map pp ys /\ NoDup ys /\
    forall s, In s ys <-> In s X /\ 300 < length s /\ ~ In s seen.
Proof.
  revert seen. induction X as [|s X IH]; intro seen; cbn [transform_loop].
  - exists []. split; [reflexivity|]. split; [constructor|]. cbn. tauto.
  - assert (Hskip : (300 < length s -> In s seen) ->
             exists ys, transform_loop pp X seen = map pp ys /\ NoDup ys /\
               forall t, In t ys <-> In t (s :: X) /\ 300 < length t /\ ~ In t seen).
    { intro Hc. destruct (IH seen) as (ys & E & Hnd & Hys). exists ys.
      split; [exact E|]. split; [exact Hnd|]. intro t. rewrite Hys. cbn [In].
      destruct (list_eq_dec Nat.eq_dec t s) as [->|Hne]; [|split; [tauto|]].
      - split; [tauto|]. intros ([_|H1] & H2 & H3); [|tauto].
        exfalso. apply H3, Hc, H2.
      - intros ([E'|H1] & H2 & H3); [congruence|tauto]. }
    destruct (in_dec (list_eq_dec Nat.eq_dec) s seen) as [Hin|Hnin].
    { rewrite andb_false_r. apply Hskip. intros _. exact Hin. }
    destruct (Nat.ltb 300 (length s)) eqn:Hl; cbn [andb negb].
    2:{ apply Hskip. intro H. apply Nat.ltb_ge in Hl. lia. }
    destruct (IH (s :: seen)) as (ys & E & Hnd & Hys).
    exists (s :: ys). split; [rewrite E; reflexivity|]. split.
    + constructor; [|exact Hnd]. intro Hs. apply Hys in Hs as (_ & _ & Hs). apply Hs. left. reflexivity.
    + apply Nat.ltb_lt in Hl. intro t. cbn [In]. rewrite Hys.
      destruct (list_eq_dec Nat.eq_dec t s) as [->|Hne].
      * split; [intros _; auto|]. intros _. left. reflexivity.
      * split.
        -- intros [E'|(H1 & H2 & H3)]; [congruence|]. split; [right; exact H1|].
           split; [exact H2|]. intro H4. apply H3. right. exact H4.
        -- intros ([E'|H1] & H2 & H3); [congruence|]. right. split; [exact H1|].
           split; [exact H2|]. intros [E'|H4]; [congruence|contradiction].
Qed.


Lemma split_go_cons cur s : exists w ws, split_go cur s = w :: ws.
Proof.
  revert cur. induction s as [|c s IH]; intro cur; cbn; [eauto|].
  destruct (Nat.eqb c 32); eauto.
Qed.

Lemma join_space_cons w ws : ws <> [] -> join_space (w :: ws) = w ++ 32 :: join_space ws.
Proof. destruct ws; [contradiction|reflexivity]. Qed.

Lemma join_split_go cur s : join_space (split_go cur s) = rev cur ++ s.
Proof.
  revert cur. induction s as [|c s IH]; intro cur; cbn [split_go].
  - rewrite app_nil_r. reflexivity.
  - destruct (Nat.eqb c 32) eqn:Ec.
    + apply Nat.eqb_eq in Ec. subst c.
      destruct (split_go_cons [] s) as (w & ws & Ew).
      rewrite join_space_cons by (rewrite Ew; discriminate).
      rewrite IH. reflexivity.
    + rewrite IH. cbn [rev]. rewrite <- app_assoc. reflexivity.
Qed.

Lemma split_go_app cur w s :
  ~ In 32 w -> split_go cur (w ++ s) = split_go (rev w ++ cur) s.
Proof.
  revert cur. induction w as [|c w IH]; intros cur Hw; [reflexivity|].
  cbn [app split_go]. replace (Nat.eqb c 32) with false.
  2:{ symmetry. apply Nat.eqb_neq. intro E. apply Hw. left. auto. }
  rewrite IH by (intro H; apply Hw; right; exact H).
  cbn [rev]. rewrite <- app_assoc. reflexivity.
Qed.

Lemma split_join ws :
  ws <> [] -> Forall (fun w => ~ In 32 w) ws -> split_space (join_space ws) = ws.
Proof.
  unfold split_space. induction ws as [|w ws IH]; intros Hne Hf; [contradiction|].
  inversion Hf; subst. destruct ws as [|w' ws'].
  - cbn [join_space]. rewrite <- (app_nil_r w), split_go_app by assumption.
    cbn. rewrite !app_nil_r, rev_involutive. reflexivity.
  - rewrite join_space_cons by discriminate.
    rewrite split_go_app by assumption. cbn [split_go]. rewrite Nat.eqb_refl.
    rewrite app_nil_r, rev_involutive, IH by (auto; discriminate). reflexivity.
Qed.

Lemma split_go_no_space cur s :
  ~ In 32 cur -> Forall (fun w => ~ In 32 w) (split_go cur s).
Proof.
  revert cur. induction s as [|c s IH]; intros cur Hc; cbn [split_go].
  - constructor; [|constructor]. rewrite <- in_rev. exact Hc.
  - destruct (Nat.eqb c 32) eqn:Ec.
    + constructor; [rewrite <- in_rev; exact Hc|]. apply IH. intros [].
    + apply IH. intros [E|H]; [apply Nat.eqb_neq in Ec; congruence|contradiction].
Qed.

Lemma lower_cp_space c : lower_cp c = 32 -> c = 32.
Proof.
  unfold lower_cp, is_upper_cp. destruct (Nat.leb 65 c && Nat.leb c 90) eqn:E; [|auto].
  apply andb_true_iff in E as [E1 E2]. apply Nat.leb_le in E1, E2. lia.
Qed.

Lemma lower_cp_not_upper c : is_upper_cp (lower_cp c) = false.
Proof.
  unfold lower_cp, is_upper_cp. destruct (Nat.leb 65 c && Nat.leb c 90) eqn:E.
  - apply andb_true_iff in E as [E1 E2]. apply Nat.leb_le in E1, E2.
    apply andb_false_iff. right. apply Nat.leb_gt. lia.
  - exact E.
Qed.

Lemma lower_cp_idem c : lower_cp (lower_cp c) = lower_cp c.
Proof.
  unfold lower_cp at 1. rewrite lower_cp_not_upper. reflexivity.
Qed.


Lemma keep_or_lower_idem w : keep_or_lower (keep_or_lower w) = keep_or_lower w.
Proof.
  assert (Hk : keep_or_lower w =
               if str_isupper w && Nat.leb 2 (length w) then w else str_lower w)
    by reflexivity.
  rewrite Hk. destruct (str_isupper w && Nat.leb 2 (length w)) eqn:E.
  - exact Hk.
  - unfold keep_or_lower. unfold str_isupper at 1. unfold str_lower at 1.
    replace (existsb is_upper_cp (map lower_cp w)) with false.
    2:{ symmetry. apply not_true_iff_false. intro H.
        apply existsb_exists in H as (c & Hc & Hu).
        apply in_map_iff in Hc as (c' & <- & _). rewrite lower_cp_not_upper in Hu.
        discriminate. }
    cbn [andb]. unfold str_lower. rewrite map_map. apply map_ext. apply lower_cp_idem.
Qed.

Lemma keep_or_lower_no_space w : ~ In 32 w -> ~ In 32 (keep_or_lower w).
Proof.
  unfold keep_or_lower, str_lower. destruct (_ && _); [auto|].
  intros Hw Hin. apply in_map_iff in Hin as (c & Hc & Hin). apply lower_cp_space in Hc.
  subst. contradiction.
Qed.

Lemma lower_but_keep_acronyms_eq s :
  lower_but_keep_acronyms s = join_space (map keep_or_lower (split_space s)).
Proof. reflexivity. Qed.

Lemma join_forall2 (R : nat -> nat -> Prop) ws ws' :
  R 32 32 -> Forall2 (Forall2 R) ws ws' -> Forall2 R (join_space ws) (join_space ws').
Proof.
  intros Hsp H. induction H as [|w w' ws ws' Hw Hws IH]; [constructor|].
  destruct Hws as [|v v' vs vs' Hv Hvs].
  - exact Hw.
  - rewrite !join_space_cons by discriminate.
    apply Forall2_app; [exact Hw|]. constructor; [exact Hsp|exact IH].
Qed.




(** ** Witnesses of the further properties *)



















